(** * Logic Pro Scripter scripts: chord logger and note-repeater tail

    A shallow embedding of [ChordEnumerator.js] (the per-bar chord logger)
    and of the note-repeater tail script, with the properties of their
    specification stated and proved over the embedding.

    Conventions of the embedding.
    - MIDI pitches, velocities, channels and bar indices are integers ([Z]).
    - Every other JavaScript number (beat positions, UI parameters, envelope
      levels) is an exact rational ([Q]): the arithmetic of the scripts is
      read in exact arithmetic, rounding of IEEE doubles is not modelled.
      Module [Tremolo64] reads [createTailRepeats] a second time, in
      binary64 arithmetic, for the statements on which rounding bears.
    - Host calls ([send], [sendAtBeat], [Trace]) become explicit output
      lists; script globals become explicit state records threaded through
      the handlers; [GetParameter] reads a parameter record. *)

From Stdlib Require Import ZArith QArith Qround Qpower Lia Lqa Ascii.
From Stdlib Require Uint63 PrimFloat FloatOps SpecFloat.
From Equations Require Import Equations.
From stdpp Require Import gmap strings list sorting pretty.

Local Open Scope string_scope.
Local Open Scope Z_scope.

(** ** JavaScript primitives used by both scripts *)

Module JS.

(** [a % b] on integers: the sign follows the dividend. *)
Definition rem (a b : Z) : Z := Z.rem a b.

(** Truthiness of a string: only the empty string is falsy. *)
Definition truthy (s : string) : bool := negb (String.eqb s "").

(** [s.indexOf(pat)], with [None] for JavaScript's [-1]. *)
Definition indexOf (s pat : string) : option nat := String.index 0 pat s.

(** [arr.join(sep)] on an array of integers. *)
Definition join (sep : string) (arr : list Z) : string :=
  String.concat sep (map pretty arr).

(** [x || d] on numbers: [0] is falsy. *)
Definition orElse (x d : Q) : Q := if Qeq_bool x 0%Q then d else x.

(** [Math.floor] and [Math.round] (halves round up). *)
Definition floor (x : Q) : Z := Qfloor x.
Definition round (x : Q) : Z := Qfloor (x + (1 # 2))%Q.

Definition max (x y : Q) : Q := if Qle_bool x y then y else x.
Definition min (x y : Q) : Q := if Qle_bool x y then x else y.

Definition ltb (x y : Q) : bool := negb (Qle_bool y x).
Definition leb (x y : Q) : bool := Qle_bool x y.

(** The integers a double holds exactly, [Number.MIN_SAFE_INTEGER] to
    [Number.MAX_SAFE_INTEGER]. *)
Definition isSafeInteger (x : Z) : Prop := Z.abs x ≤ 9007199254740991.

(** The property key of an integer, [String(x)]: its decimal digits, with
    a minus sign when negative. This is the key of every safe integer;
    from 1e21 on JavaScript writes an exponent instead. *)
Definition toKey (x : Z) : string := pretty x.

(** [parseInt(s, 10)]: leading blanks are skipped, a sign is read, then
    the longest run of decimal digits; [None] for NaN, when no digit
    follows. *)
Definition isBlank (c : ascii) : bool :=
  let n := N_of_ascii c in
  ((9 <=? n) && (n <=? 13) || (n =? 32))%N.

Fixpoint trimStart (s : string) : string :=
  match s with
  | String c rest => if isBlank c then trimStart rest else s
  | EmptyString => s
  end.

Definition digitValue (c : ascii) : option Z :=
  let n := Z.of_N (N_of_ascii c) in
  if (48 <=? n) && (n <=? 57) then Some (n - 48) else None.

Fixpoint parseDigits (s : string) (acc : option Z) : option Z :=
  match s with
  | String c rest =>
    match digitValue c with
    | Some d => parseDigits rest (Some (10 * default 0 acc + d))
    | None => acc
    end
  | EmptyString => acc
  end.

Definition parseInt (s : string) : option Z :=
  match trimStart s with
  | String c rest =>
    if Ascii.eqb c "-" then Z.opp <$> parseDigits rest None
    else if Ascii.eqb c "+" then parseDigits rest None
    else parseDigits (String c rest) None
  | EmptyString => None
  end.

End JS.

(** ** MIDI events and host timing, as both scripts receive them *)

Module Midi.

Inductive Kind := NoteOn | NoteOff | Other.

(** An event delivered by the host. [beatPos] is [None] when the host
    leaves it undefined (not a finite number). *)
Record Event := {
  kind : Kind;
  pitch : Z;
  velocity : Z;
  channel : Z;
  beatPos : option Q
}.

(** The snapshot [GetTimingInfo()] returns. *)
Record TimingInfo := {
  playing : bool;
  blockStartBeat : Q;
  meterNumerator : Q;
  meterDenominator : Q
}.

End Midi.

(** ** Pipeline A: the bar chord logger ([ChordEnumerator.js]) *)

Module ChordEnumerator.

(** The three menu parameters, as the indices [GetParameter] returns. *)
Record Params := {
  pitchClassStyle : Z;   (* "Pitch Class Style": 0 = Sharps, 1 = Flats *)
  logEmptyBars : Z;      (* "Log Empty Bars": 0 = No, 1 = Yes *)
  includeNotesList : Z   (* "Include Notes List": 0 = No, 1 = Yes *)
}.

Definition defaultParams : Params :=
  {| pitchClassStyle := 0; logEmptyBars := 0; includeNotesList := 1 |}.

Definition NAMES_SHARPS : list string :=
  ["C"; "C#"; "D"; "D#"; "E"; "F"; "F#"; "G"; "G#"; "A"; "A#"; "B"].
Definition NAMES_FLATS : list string :=
  ["C"; "Db"; "D"; "Eb"; "E"; "F"; "Gb"; "G"; "Ab"; "A"; "Bb"; "B"].

(** Array read; an index outside the array reads [undefined]. *)
Definition arrayGet (names : list string) (i : Z) : string :=
  if i <? 0 then "undefined" else nth (Z.to_nat i) names "undefined".

Definition pcName (cfg : Params) (pc : Z) : string :=
  let pc := JS.rem (JS.rem pc 12 + 12) 12 in
  if pitchClassStyle cfg =? 0 then arrayGet NAMES_SHARPS pc
  else arrayGet NAMES_FLATS pc.

(** [uniqSorted]: the object [m] is used as a set of integer keys, read
    back with [parseInt] and sorted numerically. The keys are taken to be
    the integers themselves, which is what the script does on every
    integer a double holds exactly, MIDI pitches and intervals among them;
    [uniqSortedFromKeys] below reads the same lines key by key. *)
Definition uniqSorted (arr : list Z) : list Z :=
  let m : gset Z := list_to_set arr in
  merge_sort Z.le (elements m).

(** [uniqSorted] line by line. The first loop leaves the object [m] with
    the keys [keysOf arr]; the second loop pushes [parseInt(k, 10)] for the
    keys in the order [for (k in m)] enumerates them, given here as the
    list [keys]; the result is sorted numerically. [None] when a key reads
    as NaN. *)
Definition keysOf (arr : list Z) : gset string :=
  list_to_set (JS.toKey <$> arr).

Definition uniqSortedFromKeys (keys : list string) : option (list Z) :=
  out ← mapM JS.parseInt keys;
  Some (merge_sort Z.le out).

Definition pcsFromPitches (pitches : list Z) : list Z :=
  let set : gset Z := list_to_set (map (fun p => JS.rem p 12) pitches) in
  merge_sort Z.le (elements set).

Definition intervalsFromRootPC (pcs : list Z) (rootPC : Z) : list Z :=
  uniqSorted (map (fun pc => JS.rem (pc - rootPC + 12) 12) pcs).

Fixpoint has (ints : list Z) (v : Z) : bool :=
  match ints with
  | [] => false
  | x :: rest => if x =? v then true else has rest v
  end.

Record ChordInfo := {
  name : string;
  bass : Z;
  pcs : list Z;
  pitches : list Z;
  intervals : list Z
}.

(** The function returns the bare string ["(no notes)"] for an empty
    input and an object otherwise. *)
Inductive ChordResult :=
| NoNotes (label : string)
| Chord (info : ChordInfo).

(** Triad quality, first match wins. *)
Definition triadQuality (ints : list Z) : string :=
  let has3 := has ints 3 in
  let has4 := has ints 4 in
  let has5 := has ints 5 in
  let has2 := has ints 2 in
  let has6 := has ints 6 in
  let has7 := has ints 7 in
  let has8 := has ints 8 in
  if has4 && has7 then ""
  else if has3 && has7 then "m"
  else if has3 && has6 then "dim"
  else if has4 && has8 then "aug"
  else if has2 && has7 then "sus2"
  else if has5 && has7 then "sus4"
  else "".

(** Extension and alteration tokens, in the order of the source. *)
Definition chordSuffix (ints : list Z) (quality : string) : string :=
  let suffix := "" in
  (* 7ths *)
  let suffix :=
    if has ints 10 then suffix ++ "7"
    else if has ints 11 then suffix ++ "maj7"
    else suffix in
  (* 6 *)
  let suffix :=
    if has ints 9 && bool_decide (JS.indexOf suffix "7" = None) then
      let suffix := suffix ++ (if JS.truthy suffix then "" else "6") in
      if negb (JS.truthy suffix) then "6"
      else if String.eqb suffix "maj7" then suffix ++ "(add6)"
      else suffix
    else suffix in
  (* 9 / add9 *)
  let suffix :=
    if has ints 2 then
      if String.eqb suffix "" &&
         (String.eqb quality "" || String.eqb quality "m" ||
          String.eqb quality "dim" || String.eqb quality "aug" ||
          bool_decide (JS.indexOf quality "sus" = Some 0%nat))
      then
        let suffix := suffix ++ (if JS.truthy suffix then "" else "") in
        suffix ++ (if JS.truthy suffix && negb (String.eqb suffix "6")
                   then "(add9)" else "add9")
      else suffix ++ "9"
    else suffix in
  (* 11 / add11 *)
  let suffix :=
    if has ints 5 then
      if negb (String.eqb quality "sus4")
      then suffix ++ ((if JS.truthy suffix then "" else "") ++ "add11")
      else suffix
    else suffix in
  (* 13 *)
  let suffix :=
    if has ints 9 then
      if has ints 10 || has ints 11 then suffix ++ "13" else suffix
    else suffix in
  (* alterations *)
  let suffix :=
    if has ints 6 && negb (String.eqb quality "dim")
    then suffix ++ "b5" else suffix in
  let suffix :=
    if has ints 8 && negb (String.eqb quality "aug")
    then suffix ++ "#5" else suffix in
  let suffix := if has ints 1 then suffix ++ "b9" else suffix in
  let suffix :=
    if has ints 3 && String.eqb quality ""
    then suffix ++ "#9" else suffix in
  suffix.

(** The interval tokens of the fallback label: every interval but 0. *)
Fixpoint fallbackTokens (ints : list Z) : list Z :=
  match ints with
  | [] => []
  | x :: rest => if x =? 0 then fallbackTokens rest
                 else x :: fallbackTokens rest
  end.

(** The local variable [rootPC] of [chordNameFromLowestRoot]. *)
Definition rootPCOf (sortedPitches : list Z) : Z :=
  JS.rem (hd 0 sortedPitches) 12.

Definition chordNameFromLowestRoot (cfg : Params) (pitches : list Z)
  : ChordResult :=
  match pitches with
  | [] => NoNotes "(no notes)"
  | _ :: _ =>
    let pitches := uniqSorted pitches in
    let bass := hd 0 pitches in
    let rootPC := rootPCOf pitches in
    let pcs := pcsFromPitches pitches in
    let ints := intervalsFromRootPC pcs rootPC in
    let quality := triadQuality ints in
    let suffix := chordSuffix ints quality in
    let name := pcName cfg rootPC ++ quality ++ suffix in
    let meaningful :=
      negb (String.eqb quality "") || negb (String.eqb suffix "") ||
      (length pcs =? 1)%nat in
    let name :=
      if negb meaningful
      then pcName cfg rootPC ++ " (" ++ JS.join "," (fallbackTokens ints) ++ ")"
      else name in
    Chord {| name := name; bass := bass; pcs := pcs;
             pitches := pitches; intervals := ints |}
  end.

(** The lowest pitch of a list and the range of MIDI pitches, as the
    specification speaks of them. *)
Fixpoint minPitch (l : list Z) : Z :=
  match l with
  | [] => 0
  | x :: rest => match rest with
                 | [] => x
                 | _ :: _ => Z.min x (minPitch rest)
                 end
  end.

Definition isMidiPitch (p : Z) : Prop := 0 ≤ p ≤ 127.

(** *** Measure accumulation *)

(** The globals [currentBar] ([None] is [null]), [barPitches] and
    [lastPlayed]. *)
Record State := {
  currentBar : option Z;
  barPitches : list Z;
  lastPlayed : bool
}.

Definition initialState : State :=
  {| currentBar := None; barPitches := []; lastPlayed := false |}.

(** [flushBar]: the lines it passes to [Trace]. *)
Definition flushBar (cfg : Params) (barNumber : Z) (barPitches : list Z)
  : list string :=
  let logEmpty := logEmptyBars cfg =? 1 in
  match barPitches with
  | [] => if logEmpty then ["Bar " ++ pretty barNumber ++ ": (no notes)"]
          else []
  | _ :: _ =>
    match chordNameFromLowestRoot cfg barPitches with
    | NoNotes _ => []  (* not reached: [barPitches] is not empty *)
    | Chord info =>
      let pcsNames := String.concat "-" (map (pcName cfg) (pcs info)) in
      let msg := "Bar " ++ pretty barNumber ++ ": " ++ name info ++
                 "  | bass=" ++ pretty (bass info) ++
                 "  | PCs=" ++ pcsNames in
      let msg :=
        if includeNotesList cfg =? 1
        then msg ++ "  | notes=" ++ JS.join "," (pitches info)
        else msg in
      [msg; "          semitones=" ++ JS.join "," (intervals info)]
    end
  end.

(** [HandleMIDI]: the new state and the events passed to [send]. *)
Definition HandleMIDI (st : State) (event : Midi.Event)
  : State * list Midi.Event :=
  let st :=
    match Midi.kind event with
    | Midi.NoteOn =>
      {| currentBar := currentBar st;
         barPitches := (barPitches st ++ [Midi.pitch event])%list;
         lastPlayed := lastPlayed st |}
    | _ => st
    end in
  (st, [event]).

(** Beats per bar and bar index, in exact arithmetic. The script rounds
    [4 / den], the product and the quotient to doubles; the two agree
    where those three operations are exact, as for the meters and beats of
    the examples below. *)
Definition beatsPerBar (t : Midi.TimingInfo) : Q :=
  let num := JS.orElse (Midi.meterNumerator t) 4 in
  let den := JS.orElse (Midi.meterDenominator t) 4 in
  (num * (4 / den))%Q.

Definition barIndexOf (t : Midi.TimingInfo) : Z :=
  JS.floor (Midi.blockStartBeat t / beatsPerBar t)%Q.

(** One call of [flushBar], with the bar's content at the call. *)
Record FlushCall := { barNumber : Z; flushed : list Z }.

(** The loop [while (currentBar < barIndex)]: each round flushes bar
    [currentBar + 1], advances [currentBar] and empties [barPitches]. *)
Equations? flushLoop (currentBar barIndex : Z) (barPitches : list Z)
  : Z * list Z * list FlushCall
  by wf (Z.to_nat (barIndex - currentBar)) lt :=
  flushLoop currentBar barIndex barPitches
    with Z_lt_dec currentBar barIndex => {
    | left _ =>
      let '(cb, bp, calls) := flushLoop (currentBar + 1) barIndex [] in
      (cb, bp,
       {| barNumber := currentBar + 1; flushed := barPitches |} :: calls)
    | right _ => (currentBar, barPitches, [])
  }.
Proof. lia. Qed.

(** [ProcessMIDI]: the new state and the calls of [flushBar] it makes. *)
Definition ProcessMIDI (st : State) (t : Midi.TimingInfo)
  : State * list FlushCall :=
  (* reset on stop/start *)
  let '(cur, bp) :=
    if negb (Midi.playing t) && lastPlayed st then (None, [])
    else (currentBar st, barPitches st) in
  let lp := Midi.playing t in
  if negb (Midi.playing t) then
    ({| currentBar := cur; barPitches := bp; lastPlayed := lp |}, [])
  else
    let barIndex := barIndexOf t in
    let cur := match cur with None => barIndex | Some c => c end in
    if negb (barIndex =? cur) then
      let '(cur, bp, calls) := flushLoop cur barIndex bp in
      ({| currentBar := Some cur; barPitches := bp; lastPlayed := lp |},
       calls)
    else
      ({| currentBar := Some cur; barPitches := bp; lastPlayed := lp |}, []).

(** What a tick writes to the Trace console. *)
Definition traceOf (cfg : Params) (calls : list FlushCall) : list string :=
  flat_map (fun c => flushBar cfg (barNumber c) (flushed c)) calls.

(** A host session: MIDI events and processing ticks, in delivery order. *)
Inductive Input :=
| Event (e : Midi.Event)
| Tick (t : Midi.TimingInfo).

Fixpoint run (st : State) (inputs : list Input)
  : State * list Midi.Event * list FlushCall :=
  match inputs with
  | [] => (st, [], [])
  | Event e :: rest =>
    let '(st1, sent) := HandleMIDI st e in
    let '(st2, sent', calls) := run st1 rest in
    (st2, (sent ++ sent')%list, calls)
  | Tick t :: rest =>
    let '(st1, calls) := ProcessMIDI st t in
    let '(st2, sent, calls') := run st1 rest in
    (st2, sent, (calls ++ calls')%list)
  end.

(** The events of a session, and the pitches of the note-ons among a list
    of events, in order. *)
Fixpoint eventsOf (inputs : list Input) : list Midi.Event :=
  match inputs with
  | [] => []
  | Event e :: rest => e :: eventsOf rest
  | Tick _ :: rest => eventsOf rest
  end.

Fixpoint noteOnPitches (events : list Midi.Event) : list Z :=
  match events with
  | [] => []
  | e :: rest =>
    match Midi.kind e with
    | Midi.NoteOn => Midi.pitch e :: noteOnPitches rest
    | _ => noteOnPitches rest
    end
  end.

(** Every sublist of a list, used to go through all interval sets. *)
Fixpoint sublists (l : list Z) : list (list Z) :=
  match l with
  | [] => [[]]
  | x :: rest => (map (cons x) (sublists rest) ++ sublists rest)%list
  end.

(** The interval sets whose label has neither a quality token nor a
    suffix, and the test that an interval set containing 0 is one of them
    exactly when [triadQuality] and [chordSuffix] both give the empty
    string. *)
Definition bareIntervalSets : list (list Z) := [[0]; [0; 4]; [0; 7]; [0; 4; 7]].

Definition bareLabelCheck (ints : list Z) : bool :=
  let quality := triadQuality ints in
  let suffix := chordSuffix ints quality in
  if has ints 0
  then Bool.eqb (String.eqb quality "" && String.eqb suffix "")
                (bool_decide (ints ∈ bareIntervalSets))
  else true.

End ChordEnumerator.

(** ** Pipeline B: the length-sensitive note-repeater tail (the script the
    README lists as [Tremolo.js]) *)

Module Tremolo.

Local Open Scope Q_scope.

(** [PARAM_INDEX], and the parameter values [GetParameter] returns. *)
Inductive ParamIndex :=
| NUMERATOR | DENOMINATOR | QUANTITY | DECAY | GATE | PITCH_DECAY
| PITCH_DECAY_MULTIPLIER | HIGHPASS_HZ | LOWPASS_HZ | DELAY | ATTACK
| HOLD | ENV_DECAY | SUSTAIN | RELEASE | VOICES.

Definition Params := ParamIndex -> Q.

Definition param (ps : Params) (idx : ParamIndex) : Q := ps idx.

(** The [defaultValue] of each entry of [PluginParameters]. *)
Definition defaultParams : Params := fun idx =>
  match idx with
  | NUMERATOR => 1
  | DENOMINATOR => 12
  | QUANTITY => 2
  | DECAY => 1
  | GATE => 1 # 2
  | PITCH_DECAY => 0
  | PITCH_DECAY_MULTIPLIER => 1
  | HIGHPASS_HZ => 20
  | LOWPASS_HZ => 2000
  | DELAY => 83 # 1000
  | ATTACK => 0
  | HOLD => 0
  | ENV_DECAY => 10
  | SUSTAIN => 8 # 10
  | RELEASE => 10
  | VOICES => 12
  end.

(** Beat-synced durations of the envelope menus. *)
Definition SYNC_DURATIONS : list (string * Q) :=
  [("1/64",  625 # 10000);
   ("1/32t", 833333333 # 10000000000);
   ("1/32",  125 # 1000);
   ("1/16t", 1666666667 # 10000000000);
   ("1/16",  25 # 100);
   ("1/16*", 375 # 1000);
   ("1/8t",  3333333333 # 10000000000);
   ("1/8",   5 # 10);
   ("1/8*",  75 # 100);
   ("1/4t",  6666666667 # 10000000000);
   ("1/4",   1);
   ("1/4*",  15 # 10);
   ("1/2t",  13333333333 # 10000000000);
   ("1/2",   2);
   ("1/2*",  3);
   ("1t",    26666666667 # 10000000000);
   ("1",     4);
   ("1*",    6)].

Definition clamp (val min max : Q) : Q :=
  if JS.ltb val min then min
  else if JS.ltb max val then max
  else val.

Definition envDurationFromMenu (ps : Params) (idx : ParamIndex) : Q :=
  let selection := JS.round (param ps idx) in
  let safeIdx :=
    clamp (inject_Z selection) 0
          (inject_Z (Z.of_nat (length SYNC_DURATIONS) - 1)) in
  snd (nth (Z.to_nat (Qfloor safeIdx)) SYNC_DURATIONS ("", 0)).

(** [midiPitchToHz(pitch)] is [440 * 2^((pitch - 69) / 12)], which is
    irrational for most pitches. The value is kept exact as its exponent,
    and the two comparisons the script makes with it are decided in [Q]:
    with [(pitch - 69) / 12 = n / d], [d > 0], and a bound [b > 0],
    [440 * 2^(n/d) < b] exactly when [2^n < (b / 440)^d]; the value is
    positive, so it is above every bound [b <= 0]. *)
Record Hz := { hzExponent : Q }.

Definition midiPitchToHz (pitch : Q) : Hz :=
  {| hzExponent := (pitch - 69) / 12 |}.

Definition hzLt (hz : Hz) (bound : Q) : bool :=
  let e := hzExponent hz in
  if JS.leb bound 0 then false
  else JS.ltb (Qpower 2 (Qnum e)) (Qpower (bound / 440) (Zpos (Qden e))).

Definition hzGt (hz : Hz) (bound : Q) : bool :=
  let e := hzExponent hz in
  if JS.leb bound 0 then true
  else JS.ltb (Qpower (bound / 440) (Zpos (Qden e))) (Qpower 2 (Qnum e)).

Definition envelopeAtTime (t a h d s r total : Q) : Q :=
  let attackEnd := a in
  let holdEnd := attackEnd + h in
  let decayEnd := holdEnd + d in
  let releaseStart := JS.max decayEnd (total - r) in
  if JS.leb t 0 then (if JS.ltb 0 a then 0 else 1)
  else if JS.ltb t attackEnd && JS.ltb 0 a then t / a
  else if JS.ltb t holdEnd then 1
  else if JS.ltb t decayEnd && JS.ltb 0 d then
    let k := (t - holdEnd) / d in
    1 + k * (s - 1)
  else if JS.ltb t releaseStart then s
  else
    let relTime := t - releaseStart in
    if JS.leb r 0 then 0
    else
      let kRel := 1 - JS.min 1 (relTime / r) in
      s * kRel.

(** An event handed to [sendAtBeat]: a clone of the source note-on whose
    pitch and velocity were rewritten, and the beat it is scheduled at. *)
Record Scheduled := {
  kind : Midi.Kind;
  pitch : Q;
  velocity : Z;
  channel : Z;
  atBeat : Q
}.

(** The values [createTailRepeats] computes before its loop. *)
Record Plan := {
  spacing : Q;
  repeats : Z;
  gateBeats : Q;
  totalSpan : Q;
  hpHz : Q;
  lpHz : Q
}.

Definition quantityOf (ps : Params) : Z :=
  Z.max 1 (JS.round (param ps QUANTITY)).
Definition voicesOf (ps : Params) : Z :=
  Z.max 1 (JS.round (param ps VOICES)).

Definition spacingOf (ps : Params) : Q :=
  let numerator := param ps NUMERATOR in
  let denominator := param ps DENOMINATOR in
  if negb (Qeq_bool denominator 0) then numerator / denominator else 0.

Definition planOf (ps : Params) : Plan :=
  let hpHz := param ps HIGHPASS_HZ in
  let lpHz := param ps LOWPASS_HZ in
  (* keep bounds sane *)
  let '(hpHz, lpHz) := if JS.ltb lpHz hpHz then (lpHz, hpHz)
                       else (hpHz, lpHz) in
  let spacing := spacingOf ps in
  let repeats := Z.min (quantityOf ps) (voicesOf ps) in
  let gateBeats := spacing * param ps GATE in
  let gateBeats := if JS.leb gateBeats 0 then spacing * (1 # 2)
                   else gateBeats in
  let totalSpan :=
    spacing * inject_Z (Z.max 0 (repeats - 1))
    + envDurationFromMenu ps RELEASE in
  {| spacing := spacing; repeats := repeats; gateBeats := gateBeats;
     totalSpan := totalSpan; hpHz := hpHz; lpHz := lpHz |}.

(** The velocity of repeat [i], with product, span and envelope in exact
    arithmetic; [Tremolo64.tailVelocity] is the same line in doubles. *)
Definition tailVelocity (ps : Params) (pl : Plan) (baseVel : Z) (i : nat)
  : Z :=
  let velDecay := param ps DECAY in
  let tailEnv := if JS.ltb 0 velDecay then Qpower velDecay (Z.of_nat i)
                 else 1 in
  let adsrEnv :=
    envelopeAtTime (inject_Z (Z.of_nat i) * spacing pl)
      (envDurationFromMenu ps ATTACK) (envDurationFromMenu ps HOLD)
      (envDurationFromMenu ps ENV_DECAY) (param ps SUSTAIN)
      (envDurationFromMenu ps RELEASE) (totalSpan pl) in
  let vel := JS.round (inject_Z baseVel * tailEnv * adsrEnv) in
  let vel := if (vel <? 1)%Z then 1%Z else vel in
  let vel := if (127 <? vel)%Z then 127%Z else vel in
  vel.

(** One round of the loop of [createTailRepeats]: nothing when the
    repeat falls outside the pass band, else a note-on and its
    note-off. The beats are exact sums; [Tremolo64.tailRepeat] adds them
    as doubles. *)
Definition tailRepeat (ps : Params) (pl : Plan) (srcNoteOn : Midi.Event)
    (releaseBeat : Q) (i : nat) : list Scheduled :=
  let beatTime :=
    releaseBeat + param ps DELAY + spacing pl * inject_Z (Z.of_nat i) in
  let vel := tailVelocity ps pl (Midi.velocity srcNoteOn) i in
  let transposeStep := param ps PITCH_DECAY * param ps PITCH_DECAY_MULTIPLIER in
  let onPitch :=
    clamp (inject_Z (Midi.pitch srcNoteOn)
           + transposeStep * inject_Z (Z.of_nat i)) 0 127 in
  let hz := midiPitchToHz onPitch in
  if hzLt hz (hpHz pl) || hzGt hz (lpHz pl) then []
  else
    let on := {| kind := Midi.NoteOn; pitch := onPitch; velocity := vel;
                 channel := Midi.channel srcNoteOn; atBeat := beatTime |} in
    let off := {| kind := Midi.NoteOff; pitch := pitch on;
                  velocity := velocity on; channel := channel on;
                  atBeat := beatTime + gateBeats pl |} in
    [on; off].

(** [for (var i = 0; i < repeats; i++)]: [n] rounds remain, the next
    one has index [i]. *)
Fixpoint tailLoop (ps : Params) (pl : Plan) (srcNoteOn : Midi.Event)
    (releaseBeat : Q) (n : nat) (i : nat) : list Scheduled :=
  match n with
  | O => []
  | S n' =>
    (tailRepeat ps pl srcNoteOn releaseBeat i
     ++ tailLoop ps pl srcNoteOn releaseBeat n' (S i))%list
  end.

(** [createTailRepeats]: the events passed to [sendAtBeat], in order. *)
Definition createTailRepeats (ps : Params) (srcNoteOn : Midi.Event)
    (lengthBeats releaseBeat : Q) : list Scheduled :=
  let pl := planOf ps in
  if JS.leb (spacing pl) 0 then []
  else tailLoop ps pl srcNoteOn releaseBeat (Z.to_nat (repeats pl)) 0.

(** What round [i] of the loop sends. *)
Definition roundOf (ps : Params) (pl : Plan) (src : Midi.Event)
    (releaseBeat : Q) (i : nat) (pr : Scheduled * Scheduled) : Prop :=
  kind (fst pr) = Midi.NoteOn ∧ kind (snd pr) = Midi.NoteOff
  ∧ pitch (snd pr) = pitch (fst pr)
  ∧ velocity (snd pr) = velocity (fst pr)
  ∧ channel (snd pr) = channel (fst pr)
  ∧ atBeat (fst pr)
    = releaseBeat + param ps DELAY + spacing pl * inject_Z (Z.of_nat i)
  ∧ atBeat (snd pr) = atBeat (fst pr) + gateBeats pl
  ∧ velocity (fst pr) = tailVelocity ps pl (Midi.velocity src) i.

(** *** State and handlers *)

Record Active := { on : Midi.Event; startBeat : Q }.

(** The globals [activeNotes] and [lastBeatPos]. *)
Record State := {
  activeNotes : gmap string Active;
  lastBeatPos : Q
}.

Definition initialState : State :=
  {| activeNotes := ∅; lastBeatPos := -1 |}.

Definition noteKey (ev : Midi.Event) : string :=
  (pretty (Midi.pitch ev) ++ ":" ++ pretty (Midi.channel ev))%string.

(** [ProcessMIDI]; [info] is [None] when [GetTimingInfo()] gives nothing
    usable ([info] falsy or [blockStartBeat] not a number). *)
Definition ProcessMIDI (st : State) (info : option Midi.TimingInfo) : State :=
  match info with
  | Some info => {| activeNotes := activeNotes st;
                    lastBeatPos := Midi.blockStartBeat info |}
  | None => st
  end.

(** What a handler hands to the host, in order. *)
Inductive Output :=
| Send (e : Midi.Event)
| SendAtBeat (s : Scheduled).

Definition HandleMIDI (ps : Params) (st : State) (event : Midi.Event)
  : State * list Output :=
  match Midi.kind event with
  | Midi.NoteOn =>
    let key := noteKey event in
    let startBeat := match Midi.beatPos event with
                     | Some b => b
                     | None => lastBeatPos st
                     end in
    let st := {| activeNotes :=
                   <[key := {| on := event; startBeat := startBeat |}]>
                     (activeNotes st);
                 lastBeatPos := lastBeatPos st |} in
    (st, [Send event])
  | Midi.NoteOff =>
    let offKey := noteKey event in
    match activeNotes st !! offKey with
    | Some info =>
      let startBeat := startBeat info in
      let endBeat := match Midi.beatPos event with
                     | Some b => b
                     | None => lastBeatPos st
                     end in
      let lengthBeats := JS.max 0 (endBeat - startBeat) in
      let tail := createTailRepeats ps (on info) lengthBeats endBeat in
      let st := {| activeNotes := delete offKey (activeNotes st);
                   lastBeatPos := lastBeatPos st |} in
      (st, (map SendAtBeat tail ++ [Send event])%list)
    | None => (st, [Send event])
    end
  | Midi.Other => (st, [Send event])
  end.

(** The events of an output that went through [send]. *)
Fixpoint sentNow (out : list Output) : list Midi.Event :=
  match out with
  | [] => []
  | Send e :: rest => e :: sentNow rest
  | SendAtBeat _ :: rest => sentNow rest
  end.

(** The note-ons among scheduled events. *)
Definition isNoteOn (s : Scheduled) : bool :=
  match kind s with Midi.NoteOn => true | _ => false end.

(** A note-on with its note-off, as the two sends of one loop round. *)
Definition pairList (pr : Scheduled * Scheduled) : list Scheduled :=
  [fst pr; snd pr].

(** The note-off of a pair is the clone of its note-on, sent no earlier. *)
Definition wellGated (pr : Scheduled * Scheduled) : Prop :=
  kind (fst pr) = Midi.NoteOn ∧ kind (snd pr) = Midi.NoteOff
  ∧ pitch (snd pr) = pitch (fst pr)
  ∧ velocity (snd pr) = velocity (fst pr)
  ∧ channel (snd pr) = channel (fst pr)
  ∧ (atBeat (fst pr) <= atBeat (snd pr))%Q.

(** The repeat count, the envelope value and the velocity of repeat [i]
    in the words of the specification: the count is
    [min(round(quantity), round(voices))] with both floored at 1, the
    envelope is taken at [i * spacing] over a span of
    [spacing * (count - 1) + release], and the velocity is
    [round(baseVelocity * factor * envelope)] clamped to 1..127. *)
Definition specRepeatCount (ps : Params) : Z :=
  Z.min (Z.max 1 (JS.round (param ps QUANTITY)))
        (Z.max 1 (JS.round (param ps VOICES))).

Definition specEnvelope (ps : Params) (i : nat) : Q :=
  let spacing := (param ps NUMERATOR / param ps DENOMINATOR)%Q in
  envelopeAtTime (inject_Z (Z.of_nat i) * spacing)
    (envDurationFromMenu ps ATTACK) (envDurationFromMenu ps HOLD)
    (envDurationFromMenu ps ENV_DECAY) (param ps SUSTAIN)
    (envDurationFromMenu ps RELEASE)
    (spacing * inject_Z (specRepeatCount ps - 1)
     + envDurationFromMenu ps RELEASE)%Q.

Definition clampVelocity (v : Z) : Z := Z.max 1 (Z.min 127 v).

Definition specVelocity (baseVel : Z) (factor env : Q) : Z :=
  clampVelocity (JS.round (inject_Z baseVel * factor * env)%Q).

(** A parameter set with one control moved. *)
#[global] Instance ParamIndex_eq_dec : EqDecision ParamIndex.
Proof. solve_decision. Defined.

Definition setParam (ps : Params) (idx : ParamIndex) (v : Q) : Params :=
  fun j => if decide (j = idx) then v else ps j.

(** A host session: MIDI events and processing ticks, in delivery order. *)
Inductive Input :=
| Event (e : Midi.Event)
| Tick (info : option Midi.TimingInfo).

Fixpoint run (ps : Params) (st : State) (inputs : list Input)
  : State * list Output :=
  match inputs with
  | [] => (st, [])
  | Event e :: rest =>
    let '(st1, out) := HandleMIDI ps st e in
    let '(st2, out') := run ps st1 rest in
    (st2, (out ++ out')%list)
  | Tick info :: rest => run ps (ProcessMIDI st info) rest
  end.

(** A string without the separator of [noteKey]. *)
Fixpoint noColon (s : string) : Prop :=
  match s with
  | EmptyString => True
  | String c rest => c ≠ ":"%char ∧ noColon rest
  end.

(** The events of a session, in order. *)
Fixpoint eventsOf (inputs : list Input) : list Midi.Event :=
  match inputs with
  | [] => []
  | Event e :: rest => e :: eventsOf rest
  | Tick _ :: rest => eventsOf rest
  end.

(** The beats of the scheduled note-ons, in sending order. *)
Definition onBeats (out : list Scheduled) : list Q :=
  map atBeat (List.filter isNoteOn out).

(** A parameter set with its high-pass and low-pass controls exchanged. *)
Definition swapBand (ps : Params) : Params :=
  setParam (setParam ps HIGHPASS_HZ (ps LOWPASS_HZ)) LOWPASS_HZ (ps HIGHPASS_HZ).

End Tremolo.

(** ** JavaScript numbers as IEEE binary64 values *)

Module Binary64.

Import PrimFloat FloatOps SpecFloat.
Local Open Scope float_scope.

(** An integer as a double; exact below 2^53 in absolute value. *)
Definition ofZ (z : Z) : float :=
  match z with
  | Z0 => 0
  | Zpos _ => of_uint63 (Uint63.of_Z z)
  | Zneg p => - of_uint63 (Uint63.of_Z (Zpos p))
  end.

(** [Math.round]: the nearest integer, halves towards +infinity; an
    argument in [-0.5, 0) gives -0; NaN, the infinities and the zeros are
    returned as they are. The double [m * 2^e] is read exactly. *)
Definition round (x : float) : float :=
  match Prim2SF x with
  | S754_finite s m e =>
    if (0 <=? e)%Z then x
    else
      let v := if s then Zneg m else Zpos m in
      let d := Z.pow 2 (- e) in
      let r := if (d <=? 2 * (v mod d))%Z then (v / d + 1)%Z else (v / d)%Z in
      if (r =? 0)%Z then (if s then neg_zero else zero) else ofZ r
  | _ => x
  end.

Definition isNegZero (x : float) : bool :=
  match Prim2SF x with S754_zero true => true | _ => false end.

(** [Math.max] and [Math.min]: NaN when an argument is NaN, and +0 above
    -0. *)
Definition max (x y : float) : float :=
  if is_nan x || is_nan y then nan
  else if x <? y then y
  else if y <? x then x
  else if isNegZero x then y else x.

Definition min (x y : float) : float :=
  if is_nan x || is_nan y then nan
  else if x <? y then x
  else if y <? x then y
  else if isNegZero x then x else y.

(** The array index a double stands for: [None] when it is not a
    non-negative integer (the array read gives [undefined]). *)
Definition toIndex (x : float) : option nat :=
  match Prim2SF x with
  | S754_zero _ => Some 0%nat
  | S754_finite false m e =>
    if (0 <=? e)%Z then Some (Z.to_nat (Zpos m * 2 ^ e))
    else if (Zpos m mod 2 ^ (- e) =? 0)%Z
         then Some (Z.to_nat (Zpos m / 2 ^ (- e)))
         else None
  | _ => None
  end.

(** The number of rounds of [for (var i = 0; i < bound; i++)]: none for
    NaN and for a bound that is not positive, the bound rounded up
    otherwise; [None] when the loop does not end, which is when the bound
    exceeds 2^53, where [i++] no longer changes [i]. *)
Definition tripCount (bound : float) : option Z :=
  match Prim2SF bound with
  | S754_finite false m e =>
    if 9007199254740992 <? bound then None
    else if (0 <=? e)%Z then Some (Zpos m * 2 ^ e)%Z
    else Some ((Zpos m + 2 ^ (- e) - 1) / 2 ^ (- e))%Z
  | S754_infinity false => None
  | _ => Some 0%Z
  end.

End Binary64.

(** ** Pipeline B in binary64: [createTailRepeats] with the arithmetic of
    the script

    The exact reading of module [Tremolo] and the script part where a
    double rounds: a repeat whose exact velocity is a half-integer can come
    out one lower, and at very large beat positions a sum returns one of
    its terms. This module reads the same source lines with binary64
    operations. [Math.pow], whose result ECMAScript leaves to the engine,
    is a parameter. Results are [None] when the script does not return:
    when a menu read throws or the loop does not end. *)

Module Tremolo64.

Import PrimFloat.
Local Open Scope float_scope.
Set Warnings "-inexact-float".

Definition Params := Tremolo.ParamIndex -> float.

Definition param (ps : Params) (idx : Tremolo.ParamIndex) : float := ps idx.

(** The [defaultValue] of each entry of [PluginParameters]. *)
Definition defaultParams : Params := fun idx =>
  match idx with
  | Tremolo.NUMERATOR => 1
  | Tremolo.DENOMINATOR => 12
  | Tremolo.QUANTITY => 2
  | Tremolo.DECAY => 1
  | Tremolo.GATE => 0.5
  | Tremolo.PITCH_DECAY => 0
  | Tremolo.PITCH_DECAY_MULTIPLIER => 1
  | Tremolo.HIGHPASS_HZ => 20
  | Tremolo.LOWPASS_HZ => 2000
  | Tremolo.DELAY => 0.083
  | Tremolo.ATTACK => 0
  | Tremolo.HOLD => 0
  | Tremolo.ENV_DECAY => 10
  | Tremolo.SUSTAIN => 0.8
  | Tremolo.RELEASE => 10
  | Tremolo.VOICES => 12
  end.

Definition setParam (ps : Params) (idx : Tremolo.ParamIndex) (v : float)
  : Params :=
  fun j => if decide (j = idx) then v else ps j.

Definition SYNC_DURATIONS : list (string * float) :=
  [("1/64",  0.0625);
   ("1/32t", 0.0833333333);
   ("1/32",  0.125);
   ("1/16t", 0.1666666667);
   ("1/16",  0.25);
   ("1/16*", 0.375);
   ("1/8t",  0.3333333333);
   ("1/8",   0.5);
   ("1/8*",  0.75);
   ("1/4t",  0.6666666667);
   ("1/4",   1);
   ("1/4*",  1.5);
   ("1/2t",  1.3333333333);
   ("1/2",   2);
   ("1/2*",  3);
   ("1t",    2.6666666667);
   ("1",     4);
   ("1*",    6)].

Definition clamp (val min max : float) : float :=
  if val <? min then min
  else if max <? val then max
  else val.

(** [envDurationFromMenu]; [None] when the index is NaN, where
    [SYNC_DURATIONS[safeIdx]] is [undefined] and reading [[1]] throws. *)
Definition envDurationFromMenu (ps : Params) (idx : Tremolo.ParamIndex)
  : option float :=
  let selection := Binary64.round (param ps idx) in
  let safeIdx :=
    clamp selection 0 (Binary64.ofZ (Z.of_nat (length SYNC_DURATIONS) - 1)) in
  match Binary64.toIndex safeIdx with
  | Some n => option_map snd (nth_error SYNC_DURATIONS n)
  | None => None
  end.

Definition envelopeAtTime (t a h d s r total : float) : float :=
  let attackEnd := a in
  let holdEnd := attackEnd + h in
  let decayEnd := holdEnd + d in
  let releaseStart := Binary64.max decayEnd (total - r) in
  if t <=? 0 then (if 0 <? a then 0 else 1)
  else if (t <? attackEnd) && (0 <? a) then t / a
  else if t <? holdEnd then 1
  else if (t <? decayEnd) && (0 <? d) then
    let k := (t - holdEnd) / d in
    1 + k * (s - 1)
  else if t <? releaseStart then s
  else
    let relTime := t - releaseStart in
    if r <=? 0 then 0
    else
      let kRel := 1 - Binary64.min 1 (relTime / r) in
      s * kRel.

Record Scheduled := {
  kind : Midi.Kind;
  pitch : float;
  velocity : float;
  channel : Z;
  atBeat : float
}.

(** The values [createTailRepeats] computes before its loop. *)
Record Plan := {
  envA : float;
  envH : float;
  envD : float;
  envS : float;
  envR : float;
  spacing : float;
  repeats : float;
  gateBeats : float;
  totalSpan : float;
  hpHz : float;
  lpHz : float
}.

Definition quantityOf (ps : Params) : float :=
  Binary64.max 1 (Binary64.round (param ps Tremolo.QUANTITY)).
Definition voicesOf (ps : Params) : float :=
  Binary64.max 1 (Binary64.round (param ps Tremolo.VOICES)).

Definition spacingOf (ps : Params) : float :=
  let numerator := param ps Tremolo.NUMERATOR in
  let denominator := param ps Tremolo.DENOMINATOR in
  if negb (denominator =? 0) then numerator / denominator else 0.

Definition planOf (ps : Params) : option Plan :=
  match envDurationFromMenu ps Tremolo.ATTACK,
        envDurationFromMenu ps Tremolo.HOLD,
        envDurationFromMenu ps Tremolo.ENV_DECAY,
        envDurationFromMenu ps Tremolo.RELEASE with
  | Some envA, Some envH, Some envD, Some envR =>
    let hpHz := param ps Tremolo.HIGHPASS_HZ in
    let lpHz := param ps Tremolo.LOWPASS_HZ in
    (* keep bounds sane *)
    let '(hpHz, lpHz) := if lpHz <? hpHz then (lpHz, hpHz)
                         else (hpHz, lpHz) in
    let spacing := spacingOf ps in
    let repeats := Binary64.min (quantityOf ps) (voicesOf ps) in
    let gateBeats := spacing * param ps Tremolo.GATE in
    let gateBeats := if gateBeats <=? 0 then spacing * 0.5 else gateBeats in
    let totalSpan := spacing * Binary64.max 0 (repeats - 1) + envR in
    Some {| envA := envA; envH := envH; envD := envD;
            envS := param ps Tremolo.SUSTAIN; envR := envR;
            spacing := spacing; repeats := repeats; gateBeats := gateBeats;
            totalSpan := totalSpan; hpHz := hpHz; lpHz := lpHz |}
  | _, _, _, _ => None
  end.

(** The velocity of a repeat in the words of the specification:
    [round(baseVelocity * factor * envelope)] clamped to 1..127. *)
Definition clampVelocity (v : float) : float := clamp v 1 127.

Definition specVelocity (baseVel factor env : float) : float :=
  clampVelocity (Binary64.round (baseVel * factor * env)).

Section WithPow.

(** [Math.pow] of the host. *)
Variable pow : float -> float -> float.

Definition midiPitchToHz (pitch : float) : float :=
  440 * pow 2 ((pitch - 69) / 12).

(** The velocity of the repeat with loop index [i]. *)
Definition tailVelocity (ps : Params) (pl : Plan) (baseVel : float) (i : float)
  : float :=
  let velDecay := param ps Tremolo.DECAY in
  let tailEnv := if 0 <? velDecay then pow velDecay i else 1 in
  let adsrEnv := envelopeAtTime (i * spacing pl) (envA pl) (envH pl) (envD pl)
                   (envS pl) (envR pl) (totalSpan pl) in
  let vel := Binary64.round (baseVel * tailEnv * adsrEnv) in
  let vel := if vel <? 1 then 1 else vel in
  let vel := if 127 <? vel then 127 else vel in
  vel.

(** One round of the loop. *)
Definition tailRepeat (ps : Params) (pl : Plan) (srcNoteOn : Midi.Event)
    (releaseBeat : float) (n : nat) : list Scheduled :=
  let i := Binary64.ofZ (Z.of_nat n) in
  let beatTime := releaseBeat + param ps Tremolo.DELAY + spacing pl * i in
  let vel := tailVelocity ps pl (Binary64.ofZ (Midi.velocity srcNoteOn)) i in
  let transposeStep :=
    param ps Tremolo.PITCH_DECAY * param ps Tremolo.PITCH_DECAY_MULTIPLIER in
  let onPitch :=
    clamp (Binary64.ofZ (Midi.pitch srcNoteOn) + transposeStep * i) 0 127 in
  let hz := midiPitchToHz onPitch in
  if (hz <? hpHz pl) || (lpHz pl <? hz) then []
  else
    let on := {| kind := Midi.NoteOn; pitch := onPitch; velocity := vel;
                 channel := Midi.channel srcNoteOn; atBeat := beatTime |} in
    let off := {| kind := Midi.NoteOff; pitch := pitch on;
                  velocity := velocity on; channel := channel on;
                  atBeat := beatTime + gateBeats pl |} in
    [on; off].

Fixpoint tailLoop (ps : Params) (pl : Plan) (srcNoteOn : Midi.Event)
    (releaseBeat : float) (n : nat) (i : nat) : list Scheduled :=
  match n with
  | O => []
  | S n' =>
    (tailRepeat ps pl srcNoteOn releaseBeat i
     ++ tailLoop ps pl srcNoteOn releaseBeat n' (S i))%list
  end.

Definition createTailRepeats (ps : Params) (srcNoteOn : Midi.Event)
    (lengthBeats releaseBeat : float) : option (list Scheduled) :=
  match planOf ps with
  | None => None
  | Some pl =>
    if spacing pl <=? 0 then Some []
    else
      match Binary64.tripCount (repeats pl) with
      | None => None
      | Some n => Some (tailLoop ps pl srcNoteOn releaseBeat (Z.to_nat n) 0)
      end
  end.

End WithPow.

(** [Math.pow] on the arguments where ECMAScript or plain arithmetic fixes
    its value exactly (a zero exponent gives 1, the base 1 gives 1, the
    base 0 with a positive exponent gives 0), to run examples whose calls
    all fall there; NaN elsewhere. *)
Definition examplePow (base exponent : float) : float :=
  if exponent =? 0 then 1
  else if base =? 1 then 1
  else if (base =? 0) && (0 <? exponent) then 0
  else nan.

(** The note-ons among scheduled events. *)
Definition isNoteOn (s : Scheduled) : bool :=
  match kind s with Midi.NoteOn => true | _ => false end.

(** A note-on with its note-off, as the two sends of one loop round. *)
Definition pairList (pr : Scheduled * Scheduled) : list Scheduled :=
  [fst pr; snd pr].



End Tremolo64.

(** ** Properties of the chord namer *)

Section ChordNamerFacts.

Import ChordEnumerator.

Lemma elem_of_uniqSorted (l : list Z) (x : Z) :
  x ∈ uniqSorted l ↔ x ∈ l.
Proof.
  unfold uniqSorted. rewrite merge_sort_Permutation.
  rewrite elem_of_elements. apply elem_of_list_to_set.
Qed.

Lemma sorted_nodup_strict (l : list Z) :
  StronglySorted Z.le l → NoDup l → StronglySorted Z.lt l.
Proof.
  induction 1 as [|x l Hs IH Hall]; intros Hnd; constructor.
  - apply IH. by apply NoDup_cons_1_2 in Hnd.
  - apply NoDup_cons_1_1 in Hnd.
    rewrite Forall_forall in *. intros y Hy.
    assert (x ≠ y) by (intros ->; done).
    specialize (Hall y Hy). lia.
Qed.

Lemma merge_sort_elements_strict (s : gset Z) :
  StronglySorted Z.lt (merge_sort Z.le (elements s)).
Proof.
  apply sorted_nodup_strict.
  - apply StronglySorted_merge_sort; apply _.
  - rewrite merge_sort_Permutation. apply NoDup_elements.
Qed.

Lemma uniqSorted_strict (l : list Z) : StronglySorted Z.lt (uniqSorted l).
Proof. apply merge_sort_elements_strict. Qed.

Lemma uniqSorted_NoDup (l : list Z) : NoDup (uniqSorted l).
Proof.
  unfold uniqSorted. rewrite merge_sort_Permutation. apply NoDup_elements.
Qed.

Lemma elem_of_pcsFromPitches (l : list Z) (x : Z) :
  x ∈ pcsFromPitches l ↔ ∃ p, p ∈ l ∧ x = JS.rem p 12.
Proof.
  unfold pcsFromPitches. rewrite merge_sort_Permutation.
  rewrite elem_of_elements, elem_of_list_to_set.
  change (map ?f ?l) with (f <$> l). rewrite list_elem_of_fmap.
  split; intros (p & H1 & H2); exists p; done.
Qed.

Lemma elem_of_intervals (pcs : list Z) (rootPC x : Z) :
  x ∈ intervalsFromRootPC pcs rootPC ↔
  ∃ pc, pc ∈ pcs ∧ x = JS.rem (pc - rootPC + 12) 12.
Proof.
  unfold intervalsFromRootPC. rewrite elem_of_uniqSorted.
  change (map ?f ?l) with (f <$> l). rewrite list_elem_of_fmap.
  split; intros (pc & H1 & H2); exists pc; done.
Qed.

Lemma minPitch_le (l : list Z) (x : Z) : x ∈ l → minPitch l ≤ x.
Proof.
  induction l as [|y l IH]; intros Hx; [by apply elem_of_nil in Hx|].
  apply elem_of_cons in Hx as [->|Hx].
  - destruct l; simpl; lia.
  - specialize (IH Hx). destruct l; [by apply elem_of_nil in Hx|].
    change (minPitch (y :: z :: l)) with (Z.min y (minPitch (z :: l))).
    lia.
Qed.

Lemma minPitch_elem (l : list Z) : l ≠ [] → minPitch l ∈ l.
Proof.
  induction l as [|y l IH]; [done|]. intros _.
  destruct l as [|z l]; [apply elem_of_cons; by left|].
  change (minPitch (y :: z :: l)) with (Z.min y (minPitch (z :: l))).
  apply elem_of_cons.
  destruct (Z.min_spec y (minPitch (z :: l))) as [[_ ->]|[_ ->]];
    [by left|right]. by apply IH.
Qed.

Lemma hd_strict_le (l : list Z) (x : Z) :
  StronglySorted Z.lt l → x ∈ l → hd 0 l ≤ x.
Proof.
  destruct 1 as [|y l _ Hall]; intros Hx; [by apply elem_of_nil in Hx|].
  apply elem_of_cons in Hx as [->|Hx]; simpl; [lia|].
  rewrite Forall_forall in Hall. specialize (Hall x Hx). lia.
Qed.

Lemma hd_elem (l : list Z) : l ≠ [] → hd 0 l ∈ l.
Proof. destruct l; [done|]. intros _. apply elem_of_cons. by left. Qed.

Lemma uniqSorted_nonempty (l : list Z) : l ≠ [] → uniqSorted l ≠ [].
Proof.
  destruct l as [|a l]; [done|]. intros _ Hnil.
  assert (Ha : a ∈ uniqSorted (a :: l))
    by (apply elem_of_uniqSorted, elem_of_cons; by left).
  rewrite Hnil in Ha. by apply elem_of_nil in Ha.
Qed.

(** [pitches[0]] after [uniqSorted] is the lowest input pitch. *)
Lemma hd_uniqSorted (l : list Z) :
  l ≠ [] → hd 0 (uniqSorted l) = minPitch l.
Proof.
  intros Hne. apply Z.le_antisymm.
  - apply hd_strict_le; [apply uniqSorted_strict|].
    apply elem_of_uniqSorted. by apply minPitch_elem.
  - apply minPitch_le, elem_of_uniqSorted, hd_elem.
    by apply uniqSorted_nonempty.
Qed.

Lemma has_elem (ints : list Z) (v : Z) : has ints v = true ↔ v ∈ ints.
Proof.
  induction ints as [|x l IH]; simpl.
  - rewrite elem_of_nil. split; [done|tauto].
  - rewrite elem_of_cons. destruct (Z.eqb_spec x v); [intuition|].
    rewrite IH. intuition congruence.
Qed.

Lemma pcName_nonempty (cfg : Params) (pc : Z) : pcName cfg pc ≠ "".
Proof.
  unfold pcName, JS.rem.
  assert (Hr : 0 ≤ Z.rem (Z.rem pc 12 + 12) 12 < 12).
  { pose proof (Z.rem_bound_abs pc 12).
    assert (-12 < Z.rem pc 12 < 12) by lia.
    apply Z.rem_bound_pos; lia. }
  set (k := Z.rem (Z.rem pc 12 + 12) 12) in *. clearbody k.
  assert (Hk : k = 0 ∨ k = 1 ∨ k = 2 ∨ k = 3 ∨ k = 4 ∨ k = 5 ∨ k = 6 ∨
               k = 7 ∨ k = 8 ∨ k = 9 ∨ k = 10 ∨ k = 11) by lia.
  destruct (pitchClassStyle cfg =? 0);
    repeat (destruct Hk as [->|Hk]; [discriminate|]); subst; discriminate.
Qed.

Lemma append_nonempty (s t : string) : s ≠ "" → (s ++ t)%string ≠ "".
Proof. destruct s; [done|]. discriminate. Qed.

Lemma prefix_append (s t : string) : String.prefix s (s ++ t) = true.
Proof.
  induction s as [|c s IH]; simpl; [by destruct t|].
  destruct (Ascii.ascii_dec c c); [done|congruence].
Qed.

Lemma rem12_range (p : Z) : 0 ≤ p → 0 ≤ JS.rem p 12 ≤ 11.
Proof.
  intros Hp. unfold JS.rem.
  pose proof (Z.rem_bound_pos p 12 Hp ltac:(lia)). lia.
Qed.

Lemma interval_range (pc rootPC : Z) :
  0 ≤ pc ≤ 11 → 0 ≤ rootPC ≤ 11 → 0 ≤ JS.rem (pc - rootPC + 12) 12 ≤ 11.
Proof. intros. apply rem12_range. lia. Qed.

(** The shape of every result on a non-empty input. *)
Lemma chordName_shape (cfg : Params) (input : list Z) :
  input ≠ [] →
  ∃ label,
    chordNameFromLowestRoot cfg input =
    Chord {| name := label;
             bass := hd 0 (uniqSorted input);
             pcs := pcsFromPitches (uniqSorted input);
             pitches := uniqSorted input;
             intervals :=
               intervalsFromRootPC (pcsFromPitches (uniqSorted input))
                                   (rootPCOf (uniqSorted input)) |}
    ∧ String.prefix (pcName cfg (rootPCOf (uniqSorted input))) label = true.
Proof.
  destruct input as [|a l]; [done|]. intros _.
  unfold chordNameFromLowestRoot. cbv zeta.
  eexists. split; [reflexivity|].
  match goal with |- context [if ?b then _ else _] => destruct b end;
    apply prefix_append.
Qed.

End ChordNamerFacts.

(** The embedding on the worked examples of the specification: the minor
    and diminished triads and the single pitch get their plain labels. *)
Example chordName_D_minor :
  ChordEnumerator.chordNameFromLowestRoot ChordEnumerator.defaultParams
    [62; 65; 69]
  = ChordEnumerator.Chord
      {| ChordEnumerator.name := "Dm"; ChordEnumerator.bass := 62;
         ChordEnumerator.pcs := [2; 5; 9];
         ChordEnumerator.pitches := [62; 65; 69];
         ChordEnumerator.intervals := [0; 3; 7] |}.
Proof. vm_compute. reflexivity. Qed.

Example chordName_C_diminished :
  ChordEnumerator.chordNameFromLowestRoot ChordEnumerator.defaultParams
    [60; 63; 66]
  = ChordEnumerator.Chord
      {| ChordEnumerator.name := "Cdim"; ChordEnumerator.bass := 60;
         ChordEnumerator.pcs := [0; 3; 6];
         ChordEnumerator.pitches := [60; 63; 66];
         ChordEnumerator.intervals := [0; 3; 6] |}.
Proof. vm_compute. reflexivity. Qed.

Example chordName_single_pitch :
  ChordEnumerator.chordNameFromLowestRoot ChordEnumerator.defaultParams [67]
  = ChordEnumerator.Chord
      {| ChordEnumerator.name := "G"; ChordEnumerator.bass := 67;
         ChordEnumerator.pcs := [7]; ChordEnumerator.pitches := [67];
         ChordEnumerator.intervals := [0] |}.
Proof. vm_compute. reflexivity. Qed.

(** C7. For every non-empty list of MIDI pitches the chord namer returns a
    result whose label is not empty (and begins with the name of the root
    pitch class); the root pitch class is the lowest input pitch modulo 12
    and the bass is that lowest pitch; the interval set contains 0 and is
    strictly ascending, hence without repetition, with all values in
    0..11. *)
Theorem chordNamer_invariants (cfg : ChordEnumerator.Params) (input : list Z) :
  input ≠ [] →
  Forall ChordEnumerator.isMidiPitch input →
  ∃ info,
    ChordEnumerator.chordNameFromLowestRoot cfg input = ChordEnumerator.Chord info
    ∧ ChordEnumerator.name info ≠ ""
    ∧ String.prefix (ChordEnumerator.pcName cfg (ChordEnumerator.minPitch input `mod` 12))
                    (ChordEnumerator.name info) = true
    ∧ ChordEnumerator.bass info = ChordEnumerator.minPitch input
    ∧ ChordEnumerator.rootPCOf (ChordEnumerator.pitches info)
      = ChordEnumerator.minPitch input `mod` 12
    ∧ 0 ∈ ChordEnumerator.intervals info
    ∧ StronglySorted Z.lt (ChordEnumerator.intervals info)
    ∧ NoDup (ChordEnumerator.intervals info)
    ∧ Forall (fun d => 0 ≤ d ≤ 11) (ChordEnumerator.intervals info).
Proof.
  intros Hne Hmidi.
  destruct (chordName_shape cfg input Hne) as (label & Heq & Hpre).
  assert (Hbass : hd 0 (ChordEnumerator.uniqSorted input) = ChordEnumerator.minPitch input)
    by by apply hd_uniqSorted.
  assert (Hmin : 0 ≤ ChordEnumerator.minPitch input).
  { rewrite Forall_forall in Hmidi.
    apply (Hmidi _ (minPitch_elem input Hne)). }
  assert (Hroot : ChordEnumerator.rootPCOf (ChordEnumerator.uniqSorted input)
                  = ChordEnumerator.minPitch input `mod` 12).
  { unfold ChordEnumerator.rootPCOf, JS.rem. rewrite Hbass.
    apply Z.rem_mod_nonneg; lia. }
  eexists. split; [exact Heq|]. simpl. rewrite Hroot in *.
  repeat split.
  - intros ->. pose proof (pcName_nonempty cfg (ChordEnumerator.minPitch input `mod` 12)).
    destruct (ChordEnumerator.pcName cfg (ChordEnumerator.minPitch input `mod` 12));
      [done|discriminate].
  - exact Hpre.
  - exact Hbass.
  - apply elem_of_intervals. exists (ChordEnumerator.minPitch input `mod` 12). split.
    + apply elem_of_pcsFromPitches. exists (ChordEnumerator.minPitch input). split.
      * apply elem_of_uniqSorted. by apply minPitch_elem.
      * unfold JS.rem. symmetry. apply Z.rem_mod_nonneg; lia.
    + unfold JS.rem. replace (_ - _ + 12) with 12 by lia. reflexivity.
  - apply uniqSorted_strict.
  - apply uniqSorted_NoDup.
  - apply Forall_forall. intros d Hd.
    apply elem_of_intervals in Hd as (pc & Hpc & ->).
    apply elem_of_pcsFromPitches in Hpc as (q & Hq & ->).
    rewrite elem_of_uniqSorted in Hq. rewrite Forall_forall in Hmidi.
    specialize (Hmidi q Hq). unfold ChordEnumerator.isMidiPitch in Hmidi.
    apply interval_range; [apply rem12_range; lia|].
    pose proof (Z.mod_pos_bound (ChordEnumerator.minPitch input) 12). lia.
Qed.

(** C7 at the D minor triad with its fifth doubled below the others. *)
Lemma chordNamer_invariants_witness :
  ∃ info,
    ChordEnumerator.chordNameFromLowestRoot ChordEnumerator.defaultParams
      [62; 65; 57; 69] = ChordEnumerator.Chord info
    ∧ ChordEnumerator.name info ≠ ""
    ∧ String.prefix
        (ChordEnumerator.pcName ChordEnumerator.defaultParams
           (ChordEnumerator.minPitch [62; 65; 57; 69] `mod` 12))
        (ChordEnumerator.name info) = true
    ∧ ChordEnumerator.bass info = ChordEnumerator.minPitch [62; 65; 57; 69]
    ∧ ChordEnumerator.rootPCOf (ChordEnumerator.pitches info)
      = ChordEnumerator.minPitch [62; 65; 57; 69] `mod` 12
    ∧ 0 ∈ ChordEnumerator.intervals info
    ∧ StronglySorted Z.lt (ChordEnumerator.intervals info)
    ∧ NoDup (ChordEnumerator.intervals info)
    ∧ Forall (fun d => 0 ≤ d ≤ 11) (ChordEnumerator.intervals info).
Proof.
  apply chordNamer_invariants; [discriminate|].
  repeat constructor; unfold ChordEnumerator.isMidiPitch; lia.
Defined.

(** C1. On the input [60,64,67] the chord namer returns bass 60, pitch
    classes C-E-G and intervals [0,4,7] as stated, but the label is the
    interval-list fallback "C (4,7)", not "C": the major triad leaves both
    the quality token and the suffix empty, which is also how an
    unclassified set looks to the fallback test. *)
Theorem chordName_C_major_triad (cfg : ChordEnumerator.Params) :
  ChordEnumerator.chordNameFromLowestRoot cfg [60; 64; 67] =
  ChordEnumerator.Chord
    {| ChordEnumerator.name := "C (4,7)";
       ChordEnumerator.bass := 60;
       ChordEnumerator.pcs := [0; 4; 7];
       ChordEnumerator.pitches := [60; 64; 67];
       ChordEnumerator.intervals := [0; 4; 7] |}
  ∧ map (ChordEnumerator.pcName cfg) [0; 4; 7] = ["C"; "E"; "G"]
  ∧ ChordEnumerator.triadQuality [0; 4; 7] = ""
  ∧ ChordEnumerator.chordSuffix [0; 4; 7] "" = "".
Proof.
  destruct cfg as [style logEmpty notes].
  destruct style as [|k|k]; vm_compute; auto.
Qed.

(** ** Properties of the bar tracker *)

Section BarTrackerFacts.

Import ChordEnumerator.

Lemma orElse_nonzero (x d : Q) : ¬ (d == 0)%Q → ¬ (JS.orElse x d == 0)%Q.
Proof.
  intros Hd. unfold JS.orElse.
  destruct (Qeq_bool x 0) eqn:E; [done|].
  intros Hx. apply Qeq_bool_iff in Hx. congruence.
Qed.

Lemma orElse_zero (x d : Q) : (x == 0)%Q → JS.orElse x d = d.
Proof.
  intros Hx. unfold JS.orElse. apply Qeq_bool_iff in Hx. by rewrite Hx.
Qed.

(** The loop flushes bars [c+1 .. c+K] (1-based numbers of the bars
    [c .. c+K-1]): the first call carries the open bar's pitches, the
    others are empty. *)
Lemma flushLoop_calls (K : nat) (c : Z) (bp : list Z) :
  ∃ calls,
    flushLoop c (c + Z.of_nat K) bp
    = (c + Z.of_nat K, match K with O => bp | S _ => [] end, calls)
    ∧ map barNumber calls = seqZ (c + 1) (Z.of_nat K)
    ∧ map flushed calls = take K (bp :: replicate K []).
Proof.
  revert c bp. induction K as [|K IH]; intros c bp.
  - exists []. simp flushLoop.
    destruct (Z_lt_dec c (c + Z.of_nat 0)) as [Hlt|Hge]; [lia|].
    simpl. replace (c + Z.of_nat 0) with c by lia. done.
  - destruct (IH (c + 1) []) as (calls & Heq & Hnum & Hfl).
    replace (c + 1 + Z.of_nat K) with (c + Z.of_nat (S K)) in Heq by lia.
    exists ({| barNumber := c + 1; flushed := bp |} :: calls).
    simp flushLoop.
    destruct (Z_lt_dec c (c + Z.of_nat (S K))) as [Hlt|Hge]; [|lia].
    simpl. rewrite Heq. split; [|split].
    + f_equal. f_equal. by destruct K.
    + simpl. rewrite Hnum. rewrite (seqZ_cons (c + 1)) by lia.
      do 2 f_equal; lia.
    + simpl. rewrite Hfl. reflexivity.
Qed.

End BarTrackerFacts.



(** Ticks on beats 0, 3.9, 4.0 and 4.1 at 4/4: one flush, at the tick on
    beat 4.0, for bar 1 and its content. *)
Example one_flush_at_the_bar_line :
  let tick b := ChordEnumerator.Tick
                  {| Midi.playing := true; Midi.blockStartBeat := b;
                     Midi.meterNumerator := 4; Midi.meterDenominator := 4 |} in
  let note p := ChordEnumerator.Event
                  {| Midi.kind := Midi.NoteOn; Midi.pitch := p;
                     Midi.velocity := 100; Midi.channel := 1;
                     Midi.beatPos := None |} in
  snd (ChordEnumerator.run ChordEnumerator.initialState
         [tick 0%Q; note 62; note 65; tick (39 # 10)%Q])
  = []
  ∧ snd (ChordEnumerator.run ChordEnumerator.initialState
           [tick 0%Q; note 62; note 65; tick (39 # 10)%Q; tick 4%Q;
            tick (41 # 10)%Q])
    = [{| ChordEnumerator.barNumber := 1;
          ChordEnumerator.flushed := [62; 65] |}].
Proof. vm_compute. auto. Qed.


(** C3 as stated fails: a zero denominator is replaced by 4 in the
    denominator, so 3/0 gives 3 beats per bar and beat 3 lies in bar 1, not
    in bar 0 as with 4 beats per bar; a negative denominator is used as it
    is, and 4/(-4) gives -4 beats per bar. *)
Lemma beatsPerBar_not_always_4 :
  let t0 := {| Midi.playing := true; Midi.blockStartBeat := 3;
               Midi.meterNumerator := 3; Midi.meterDenominator := 0 |} in
  let t1 := {| Midi.playing := true; Midi.blockStartBeat := 4;
               Midi.meterNumerator := 4; Midi.meterDenominator := -4 |} in
  (ChordEnumerator.beatsPerBar t0 == 3)%Q
  ∧ ¬ (ChordEnumerator.beatsPerBar t0 == 4)%Q
  ∧ ChordEnumerator.barIndexOf t0 = 1
  ∧ JS.floor (Midi.blockStartBeat t0 / 4) = 0
  ∧ (ChordEnumerator.beatsPerBar t1 == -4)%Q
  ∧ ¬ (ChordEnumerator.beatsPerBar t1 == 4)%Q
  ∧ ChordEnumerator.barIndexOf t1 = -1
  ∧ JS.floor (Midi.blockStartBeat t1 / 4) = 1.
Proof. vm_compute. repeat split; discriminate. Qed.

(** C3, amended. The number of beats per bar is never zero, whatever the
    meter, so the bar index is a quotient by a non-zero number; and when
    the meter denominator is 0 it is replaced by 4, which makes the number
    of beats per bar equal to the meter numerator (to 4 when the numerator
    is 0 as well). *)
Theorem beatsPerBar_zero_denominator (t : Midi.TimingInfo) :
  ¬ (ChordEnumerator.beatsPerBar t == 0)%Q
  ∧ ((Midi.meterDenominator t == 0)%Q →
     (ChordEnumerator.beatsPerBar t == JS.orElse (Midi.meterNumerator t) 4)%Q
     ∧ ChordEnumerator.barIndexOf t
       = JS.floor (Midi.blockStartBeat t / JS.orElse (Midi.meterNumerator t) 4)).
Proof.
  assert (H4 : ¬ (4 == 0)%Q) by discriminate.
  split.
  - unfold ChordEnumerator.beatsPerBar. intros Hz.
    apply Qmult_integral in Hz as [Hz|Hz].
    + by apply (orElse_nonzero (Midi.meterNumerator t) 4).
    + unfold Qdiv in Hz. apply Qmult_integral in Hz as [Hz|Hz]; [done|].
      apply (orElse_nonzero (Midi.meterDenominator t) 4 H4).
      rewrite <- (Qinv_involutive (JS.orElse _ _)). by rewrite Hz.
  - intros Hden.
    assert (Hb : (ChordEnumerator.beatsPerBar t
                  == JS.orElse (Midi.meterNumerator t) 4)%Q).
    { unfold ChordEnumerator.beatsPerBar. rewrite (orElse_zero _ _ Hden).
      setoid_replace (4 / 4)%Q with 1%Q using relation Qeq by reflexivity.
      apply Qmult_1_r. }
    split; [exact Hb|].
    unfold ChordEnumerator.barIndexOf, JS.floor. apply Qfloor_comp.
    by rewrite Hb.
Qed.

(** C3, amended, at the meter 3/0. *)
Lemma beatsPerBar_zero_denominator_witness :
  let t0 := {| Midi.playing := true; Midi.blockStartBeat := 3;
               Midi.meterNumerator := 3; Midi.meterDenominator := 0 |} in
  (Midi.meterDenominator t0 == 0)%Q
  ∧ (ChordEnumerator.beatsPerBar t0 == JS.orElse (Midi.meterNumerator t0) 4)%Q
  ∧ ChordEnumerator.barIndexOf t0
    = JS.floor (Midi.blockStartBeat t0 / JS.orElse (Midi.meterNumerator t0) 4).
Proof.
  intros t0. split; [reflexivity|].
  apply (beatsPerBar_zero_denominator t0). reflexivity.
Defined.

(** ** Properties of the tail generator *)

Section TailFacts.

Import Tremolo.
Local Open Scope Q_scope.

Lemma ltb_lt (x y : Q) : JS.ltb x y = true ↔ x < y.
Proof.
  unfold JS.ltb. rewrite negb_true_iff.
  destruct (Qle_bool y x) eqn:E.
  - apply Qle_bool_iff in E. split; [done|]. intros H.
    exfalso. by apply (Qlt_not_le _ _ H).
  - split; [intros _|done]. apply Qnot_le_lt. intros H.
    apply Qle_bool_iff in H. congruence.
Qed.

Lemma leb_le (x y : Q) : JS.leb x y = true ↔ x <= y.
Proof. apply Qle_bool_iff. Qed.

Lemma leb_false (x y : Q) : JS.leb x y = false ↔ y < x.
Proof.
  unfold JS.leb. destruct (Qle_bool x y) eqn:E.
  - apply Qle_bool_iff in E. split; [done|]. intros H.
    exfalso. by apply (Qlt_not_le _ _ H).
  - split; [intros _|done]. apply Qnot_le_lt. intros H.
    apply Qle_bool_iff in H. congruence.
Qed.

Lemma spacing_planOf (ps : Params) : spacing (planOf ps) = spacingOf ps.
Proof. unfold planOf. by destruct (JS.ltb _ _). Qed.

Lemma repeats_planOf (ps : Params) :
  repeats (planOf ps) = Z.min (quantityOf ps) (voicesOf ps).
Proof. unfold planOf. by destruct (JS.ltb _ _). Qed.

Lemma totalSpan_planOf (ps : Params) :
  totalSpan (planOf ps)
  = spacingOf ps
    * inject_Z (Z.max 0 (Z.min (quantityOf ps) (voicesOf ps) - 1))
    + envDurationFromMenu ps RELEASE.
Proof. unfold planOf. by destruct (JS.ltb _ _). Qed.

Lemma gateBeats_planOf (ps : Params) :
  gateBeats (planOf ps)
  = if JS.leb (spacingOf ps * param ps GATE) 0
    then spacingOf ps * (1 # 2) else spacingOf ps * param ps GATE.
Proof. unfold planOf. by destruct (JS.ltb _ _). Qed.

(** Past the guard on [spacing] the gate length is positive. *)
Lemma gateBeats_pos (ps : Params) :
  0 < spacingOf ps → 0 < gateBeats (planOf ps).
Proof.
  intros Hsp. rewrite gateBeats_planOf.
  destruct (JS.leb _ 0) eqn:E.
  - apply Qmult_lt_0_compat; [done|reflexivity].
  - by apply leb_false in E.
Qed.

Lemma tailRepeat_cases ps pl src releaseBeat i :
  tailRepeat ps pl src releaseBeat i = []
  ∨ ∃ pr, tailRepeat ps pl src releaseBeat i = pairList pr
          ∧ roundOf ps pl src releaseBeat i pr.
Proof.
  unfold tailRepeat. destruct (_ || _); [by left|right].
  eexists (_, _). split; [reflexivity|]. by repeat split.
Qed.

(** The loop sends a sequence of pairs, at most one per round, each from
    a round between [i] and [i + n - 1]. *)
Lemma tailLoop_pairs ps pl src releaseBeat n i :
  ∃ prs,
    tailLoop ps pl src releaseBeat n i = flat_map pairList prs
    ∧ (length prs ≤ n)%nat
    ∧ Forall (fun pr => ∃ j, (i ≤ j < i + n)%nat
                             ∧ roundOf ps pl src releaseBeat j pr) prs.
Proof.
  revert i. induction n as [|n IH]; intros i.
  - exists []. by repeat split.
  - destruct (IH (S i)) as (prs & Heq & Hlen & Hall). simpl. rewrite Heq.
    assert (Hall' : Forall (fun pr => ∃ j, (i ≤ j < i + S n)%nat
                             ∧ roundOf ps pl src releaseBeat j pr) prs).
    { eapply Forall_impl; [exact Hall|].
      intros pr (j & Hj & Hr). exists j. split; [lia|done]. }
    destruct (tailRepeat_cases ps pl src releaseBeat i)
      as [->|(pr & -> & Hr)].
    + exists prs. repeat split; [lia|done].
    + exists (pr :: prs). repeat split; [simpl; lia|].
      constructor; [|done]. exists i. split; [lia|done].
Qed.

Lemma noteOns_of_pairs (prs : list (Scheduled * Scheduled)) :
  Forall (fun pr => kind (fst pr) = Midi.NoteOn
                    ∧ kind (snd pr) = Midi.NoteOff) prs →
  length (List.filter isNoteOn (flat_map pairList prs)) = length prs.
Proof.
  induction 1 as [|pr prs [Hon Hoff] _ IH]; [reflexivity|].
  simpl. unfold isNoteOn at 1 2. rewrite Hon, Hoff. simpl. by rewrite IH.
Qed.

Lemma noteOn_in_pairs (prs : list (Scheduled * Scheduled)) (s : Scheduled) :
  Forall (fun pr => kind (snd pr) = Midi.NoteOff) prs →
  In s (flat_map pairList prs) → kind s = Midi.NoteOn →
  ∃ pr, In pr prs ∧ s = fst pr.
Proof.
  induction 1 as [|pr prs Hoff _ IH]; intros Hin Hk; [done|].
  simpl in Hin. destruct Hin as [<-|[<-|Hin]].
  - exists pr. split; [by left|done].
  - congruence.
  - destruct (IH Hin Hk) as (pr' & Hpr' & ->).
    exists pr'. split; [by right|done].
Qed.

Lemma spacingOf_pos (ps : Params) :
  0 < spacingOf ps →
  spacingOf ps = param ps NUMERATOR / param ps DENOMINATOR.
Proof.
  unfold spacingOf. destruct (Qeq_bool _ 0); simpl; [|done].
  intros H. by apply Qlt_irrefl in H.
Qed.

Lemma repeats_ge_1 (ps : Params) : (1 ≤ repeats (planOf ps))%Z.
Proof. rewrite repeats_planOf. unfold quantityOf, voicesOf. lia. Qed.

End TailFacts.

(** C9. At t = 0 the envelope is 1 when the attack duration is 0 and 0 when
    the attack duration is strictly positive, whatever the other stage
    values. *)
Theorem envelope_at_zero (t a h d s r total : Q) :
  (t == 0)%Q →
  ((a == 0)%Q → Tremolo.envelopeAtTime t a h d s r total = 1%Q)
  ∧ ((0 < a)%Q → Tremolo.envelopeAtTime t a h d s r total = 0%Q).
Proof.
  intros Ht. unfold Tremolo.envelopeAtTime.
  assert (Hle : JS.leb t 0 = true) by (apply leb_le; rewrite Ht; apply Qle_refl).
  rewrite Hle. split; intros Ha.
  - destruct (JS.ltb 0 a) eqn:E; [|done].
    apply ltb_lt in E. rewrite Ha in E. by apply Qlt_irrefl in E.
  - apply ltb_lt in Ha. by rewrite Ha.
Qed.

(** C9 at t = 0, once without an attack stage and once with the 1/64
    attack. *)
Lemma envelope_at_zero_witness :
  (0 == 0)%Q
  ∧ Tremolo.envelopeAtTime 0 0 (1 # 4) 1 (8 # 10) 1 2 = 1%Q
  ∧ Tremolo.envelopeAtTime 0 (1 # 16) (1 # 4) 1 (8 # 10) 1 2 = 0%Q.
Proof.
  split; [reflexivity|]. split.
  - apply (envelope_at_zero 0 0 (1 # 4) 1 (8 # 10) 1 2); reflexivity.
  - apply (envelope_at_zero 0 (1 # 16) (1 # 4) 1 (8 # 10) 1 2); reflexivity.
Defined.

(** C8. When the denominator parameter is 0, or the spacing
    numerator/denominator is not positive, [createTailRepeats] schedules
    no event, whatever the other parameters, the source note and the
    beats are. *)
Theorem no_tail_without_spacing
    (ps : Tremolo.Params) (src : Midi.Event) (lengthBeats releaseBeat : Q) :
  (Tremolo.param ps Tremolo.DENOMINATOR == 0
   ∨ Tremolo.param ps Tremolo.NUMERATOR / Tremolo.param ps Tremolo.DENOMINATOR <= 0)%Q →
  Tremolo.createTailRepeats ps src lengthBeats releaseBeat = [].
Proof.
  intros H. unfold Tremolo.createTailRepeats. rewrite spacing_planOf.
  assert (Hsp : JS.leb (Tremolo.spacingOf ps) 0 = true); [|by rewrite Hsp].
  apply leb_le. unfold Tremolo.spacingOf.
  destruct (Qeq_bool (Tremolo.param ps Tremolo.DENOMINATOR) 0) eqn:E; simpl.
  - apply Qle_refl.
  - destruct H as [H|H]; [|done].
    apply Qeq_bool_iff in H. congruence.
Qed.

(** C8 with the denominator control at 0 and every other control at its
    default. *)
Lemma no_tail_without_spacing_witness :
  let ps := Tremolo.setParam Tremolo.defaultParams Tremolo.DENOMINATOR 0 in
  let src := {| Midi.kind := Midi.NoteOn; Midi.pitch := 69;
                Midi.velocity := 100; Midi.channel := 1;
                Midi.beatPos := Some 0%Q |} in
  Tremolo.createTailRepeats ps src 1 4 = [].
Proof.
  intros ps src. apply (no_tail_without_spacing ps src 1 4).
  left. reflexivity.
Defined.

(** C10. Both handlers pass every incoming event to [send] exactly once
    and unchanged, on every path: the chord logger sends the event and
    nothing else; the tail generator's output is the scheduled tail events
    (none unless a note-off is matched) followed by the one immediate send
    of the incoming event. *)
Theorem events_forwarded_once :
  (∀ (st : ChordEnumerator.State) (e : Midi.Event),
     snd (ChordEnumerator.HandleMIDI st e) = [e])
  ∧ (∀ (ps : Tremolo.Params) (st : Tremolo.State) (e : Midi.Event),
       Tremolo.sentNow (snd (Tremolo.HandleMIDI ps st e)) = [e]
       ∧ ∃ tail, snd (Tremolo.HandleMIDI ps st e)
                 = (map Tremolo.SendAtBeat tail ++ [Tremolo.Send e])%list).
Proof.
  split; [reflexivity|].
  intros ps st e.
  assert (Hsent : ∀ tail,
             Tremolo.sentNow (map Tremolo.SendAtBeat tail ++ [Tremolo.Send e]) = [e]).
  { induction tail as [|s tail IH]; [reflexivity|exact IH]. }
  cut (∃ tail, snd (Tremolo.HandleMIDI ps st e)
               = (map Tremolo.SendAtBeat tail ++ [Tremolo.Send e])%list).
  { intros [tail Ht]. split; [|by exists tail]. rewrite Ht. apply Hsent. }
  unfold Tremolo.HandleMIDI. destruct (Midi.kind e).
  - by exists [].
  - destruct (Tremolo.activeNotes st !! Tremolo.noteKey e) as [info|].
    + by eexists.
    + by exists [].
  - by exists [].
Qed.

(** In the exact reading, whatever the parameters, the note-ons that
    [createTailRepeats] schedules are at most min(round(quantity),
    round(voices)), both floored at 1, and its output is a sequence of
    note-on/note-off pairs in which the note-off copies the note-on and is
    scheduled no earlier. *)
Lemma tail_count_and_gate_exact
    (ps : Tremolo.Params) (src : Midi.Event) (lengthBeats releaseBeat : Q) :
  let out := Tremolo.createTailRepeats ps src lengthBeats releaseBeat in
  Z.of_nat (length (List.filter Tremolo.isNoteOn out))
  ≤ Z.min (Z.max 1 (JS.round (Tremolo.param ps Tremolo.QUANTITY)))
          (Z.max 1 (JS.round (Tremolo.param ps Tremolo.VOICES)))
  ∧ ∃ prs, out = flat_map Tremolo.pairList prs ∧ Forall Tremolo.wellGated prs.
Proof.
  intros out. subst out. unfold Tremolo.createTailRepeats.
  destruct (JS.leb (Tremolo.spacing (Tremolo.planOf ps)) 0) eqn:Esp.
  - split; [simpl; lia|]. by exists [].
  - apply leb_false in Esp. rewrite spacing_planOf in Esp.
    destruct (tailLoop_pairs ps (Tremolo.planOf ps) src releaseBeat
                (Z.to_nat (Tremolo.repeats (Tremolo.planOf ps))) 0)
      as (prs & -> & Hlen & Hall).
    assert (Hg : Forall Tremolo.wellGated prs).
    { eapply Forall_impl; [exact Hall|].
      intros pr (j & _ & Hon & Hoff & Hp & Hv & Hc & Hb & Hb' & _).
      repeat split; try done. rewrite Hb'. apply Qlt_le_weak.
      rewrite <- (Qplus_0_r (Tremolo.atBeat (fst pr))) at 1.
      apply Qplus_lt_r. by apply gateBeats_pos. }
    split; [|by exists prs].
    rewrite noteOns_of_pairs.
    + pose proof (repeats_ge_1 ps) as Hr. rewrite repeats_planOf in *.
      unfold Tremolo.quantityOf, Tremolo.voicesOf in *. lia.
    + eapply Forall_impl; [exact Hg|]. by intros pr (? & ? & _).
Qed.

(** C4 as stated fails at velocityDecay = 0: with the default controls
    otherwise and a source velocity of 100, repeat 1 is scheduled with
    velocity 100, where round(100 * 0^1 * envelope) clamped to 1..127 is
    1. *)
Lemma tail_velocity_at_zero_decay :
  let ps := Tremolo.setParam Tremolo.defaultParams Tremolo.DECAY 0 in
  let src := {| Midi.kind := Midi.NoteOn; Midi.pitch := 69;
                Midi.velocity := 100; Midi.channel := 1;
                Midi.beatPos := Some 0%Q |} in
  let out := Tremolo.createTailRepeats ps src 1 4 in
  map Tremolo.kind out = [Midi.NoteOn; Midi.NoteOff; Midi.NoteOn; Midi.NoteOff]
  ∧ map Tremolo.velocity out = [1; 1; 100; 100]
  ∧ (nth 2 (map Tremolo.atBeat out) 0
     == 4 + Tremolo.param ps Tremolo.DELAY
        + Tremolo.param ps Tremolo.NUMERATOR / Tremolo.param ps Tremolo.DENOMINATOR * 1)%Q
  ∧ Tremolo.specEnvelope ps 1 = 1%Q
  ∧ Tremolo.specVelocity 100 (Tremolo.param ps Tremolo.DECAY ^ 1) (Tremolo.specEnvelope ps 1)
    = 1.
Proof. vm_compute. auto. Qed.

Section Binary64Examples.

Import PrimFloat.
Set Warnings "-inexact-float".

(** [Math.round] takes halves up, also below zero, and keeps the sign of
    an argument it rounds to zero. *)
Example round_examples :
  Binary64.round 2.5%float = 3%float
  ∧ Binary64.round (-2.5)%float = (-2)%float
  ∧ Binary64.round 63.499999999999993%float = 63%float
  ∧ Binary64.round 0.49999999999999994%float = 0%float
  ∧ Binary64.round (-0.5)%float = neg_zero
  ∧ Binary64.round 9007199254740991%float = 9007199254740991%float
  ∧ is_nan (Binary64.round nan) = true.
Proof. vm_compute. auto 8. Qed.

(** The loop [for (var i = 0; i < bound; i++)] runs [bound] times for a
    positive integer bound up to 2^53, and does not end beyond. *)
Example tripCount_examples :
  Binary64.tripCount 2%float = Some 2
  ∧ Binary64.tripCount 12%float = Some 12
  ∧ Binary64.tripCount 2.5%float = Some 3
  ∧ Binary64.tripCount 0%float = Some 0
  ∧ Binary64.tripCount (-3)%float = Some 0
  ∧ Binary64.tripCount nan = Some 0
  ∧ Binary64.tripCount 9007199254740992%float = Some 9007199254740992
  ∧ Binary64.tripCount 9007199254740994%float = None
  ∧ Binary64.tripCount infinity = None.
Proof. vm_compute. auto 10. Qed.

(** [Math.max] and [Math.min] give NaN as soon as an argument is NaN. *)
Example max_min_examples :
  Binary64.max 1%float 3%float = 3%float
  ∧ Binary64.min 2%float 12%float = 2%float
  ∧ is_nan (Binary64.max 1%float nan) = true
  ∧ is_nan (Binary64.min nan 1%float) = true
  ∧ Binary64.max neg_zero 0%float = 0%float
  ∧ Binary64.min 0%float neg_zero = neg_zero.
Proof. vm_compute. auto 8. Qed.

End Binary64Examples.

Section Tail64Facts.

Import PrimFloat Tremolo64.
Local Open Scope float_scope.

Variable pow : float -> float -> float.

(** A plan holds the menu durations and the values of the source lines
    that compute spacing, repeat count and envelope span. *)
Lemma planOf64_fields (ps : Params) (pl : Plan) :
  planOf ps = Some pl →
  envDurationFromMenu ps Tremolo.ATTACK = Some (envA pl)
  ∧ envDurationFromMenu ps Tremolo.HOLD = Some (envH pl)
  ∧ envDurationFromMenu ps Tremolo.ENV_DECAY = Some (envD pl)
  ∧ envDurationFromMenu ps Tremolo.RELEASE = Some (envR pl)
  ∧ envS pl = param ps Tremolo.SUSTAIN
  ∧ spacing pl = spacingOf ps
  ∧ repeats pl = Binary64.min (quantityOf ps) (voicesOf ps)
  ∧ totalSpan pl
    = spacing pl * Binary64.max 0 (repeats pl - 1) + envR pl.
Proof.
  unfold planOf.
  destruct (envDurationFromMenu ps Tremolo.ATTACK) as [a|]; [|done].
  destruct (envDurationFromMenu ps Tremolo.HOLD) as [h|]; [|done].
  destruct (envDurationFromMenu ps Tremolo.ENV_DECAY) as [d|]; [|done].
  destruct (envDurationFromMenu ps Tremolo.RELEASE) as [r|]; [|done].
  destruct (_ <? _); intros [= <-]; by repeat split.
Qed.

(** Past the guard [spacing <= 0] the spacing is the quotient of the two
    controls. *)
Lemma spacingOf64_quotient (ps : Params) :
  (spacingOf ps <=? 0) = false →
  spacingOf ps
  = param ps Tremolo.NUMERATOR / param ps Tremolo.DENOMINATOR.
Proof.
  unfold spacingOf. cbv zeta.
  destruct (param ps Tremolo.DENOMINATOR =? 0); [|done].
  cbn [negb]. intros H. vm_compute in H. discriminate.
Qed.

(** The two clamping tests of the loop are [clamp] to 1..127. *)
Lemma tailVelocity64_spec (ps : Params) (pl : Plan) (baseVel i : float) :
  tailVelocity pow ps pl baseVel i
  = specVelocity baseVel
      (if 0 <? param ps Tremolo.DECAY then pow (param ps Tremolo.DECAY) i
       else 1)
      (envelopeAtTime (i * spacing pl) (envA pl) (envH pl) (envD pl)
         (envS pl) (envR pl) (totalSpan pl)).
Proof.
  unfold tailVelocity, specVelocity, clampVelocity, clamp. cbv zeta.
  match goal with |- context [Binary64.round ?x] =>
    generalize (Binary64.round x) end.
  intros v. destruct (v <? 1); [|done].
  reflexivity.
Qed.

Lemma tailRepeat64_cases ps pl src rel n :
  tailRepeat pow ps pl src rel n = []
  ∨ ∃ on off,
      tailRepeat pow ps pl src rel n = [on; off]
      ∧ kind on = Midi.NoteOn ∧ kind off = Midi.NoteOff
      ∧ atBeat on
        = rel + param ps Tremolo.DELAY
          + spacing pl * Binary64.ofZ (Z.of_nat n)
      ∧ velocity on
        = tailVelocity pow ps pl (Binary64.ofZ (Midi.velocity src))
            (Binary64.ofZ (Z.of_nat n)).
Proof.
  unfold tailRepeat. cbv zeta. destruct (_ || _); [by left|right].
  eexists _, _. by repeat split.
Qed.





(** Every note-on the loop sends is the note-on of one of its rounds. *)
Lemma tailLoop64_note_on ps pl src rel n i s :
  In s (tailLoop pow ps pl src rel n i) → kind s = Midi.NoteOn →
  ∃ j : nat,
    (i ≤ j < i + n)%nat
    ∧ atBeat s
      = rel + param ps Tremolo.DELAY + spacing pl * Binary64.ofZ (Z.of_nat j)
    ∧ velocity s
      = tailVelocity pow ps pl (Binary64.ofZ (Midi.velocity src))
          (Binary64.ofZ (Z.of_nat j)).
Proof.
  revert i. induction n as [|n IH]; intros i Hin Hk; [done|].
  cbn [tailLoop] in Hin. apply in_app_or in Hin as [Hin|Hin].
  - destruct (tailRepeat64_cases ps pl src rel i)
      as [E|(on & off & E & Hon & Hoff & Hb & Hv)];
      rewrite E in Hin; [done|].
    destruct Hin as [<-|[<-|[]]]; [|congruence].
    exists i. split; [lia|done].
  - destruct (IH (S i) Hin Hk) as (j & Hj & Hb & Hv).
    exists j. split; [lia|done].
Qed.

End Tail64Facts.

Section Tail64Velocity.

Import PrimFloat.

(** In binary64 the velocity of a repeat can be one below the exact
    value: with Quantity 3, Denominator 3, Sustain 0.5, the first Decay
    entry and a source velocity of 127, the third repeat lies an ulp into
    the release stage and gets 63, where 127 * 0.5 rounds to 64. *)
Example third_repeat_velocity_binary64 :
  let ps := Tremolo64.setParam
              (Tremolo64.setParam
                 (Tremolo64.setParam
                    (Tremolo64.setParam Tremolo64.defaultParams
                       Tremolo.QUANTITY 3%float)
                    Tremolo.DENOMINATOR 3%float)
                 Tremolo.SUSTAIN 0.5%float)
              Tremolo.ENV_DECAY 0%float in
  let src := {| Midi.kind := Midi.NoteOn; Midi.pitch := 69;
                Midi.velocity := 127; Midi.channel := 1;
                Midi.beatPos := None |} in
  option_map (map Tremolo64.velocity)
    (Tremolo64.createTailRepeats Tremolo64.examplePow ps src 1%float 4%float)
  = Some [1; 1; 64; 64; 63; 63]%float.
Proof. vm_compute. reflexivity. Qed.

(** C4 at velocityDecay = 0 in binary64, as in exact arithmetic: repeat 1
    is sent with velocity 100, and round(100 * 0^1 * 1) clamped is 1. *)
Example tail_velocity_at_zero_decay_binary64 :
  let ps := Tremolo64.setParam Tremolo64.defaultParams Tremolo.DECAY 0%float in
  let src := {| Midi.kind := Midi.NoteOn; Midi.pitch := 69;
                Midi.velocity := 100; Midi.channel := 1;
                Midi.beatPos := None |} in
  option_map (map Tremolo64.velocity)
    (Tremolo64.createTailRepeats Tremolo64.examplePow ps src 1%float 4%float)
  = Some [1; 1; 100; 100]%float
  ∧ Tremolo64.specVelocity 100%float
      (Tremolo64.examplePow 0%float 1%float) 1%float = 1%float.
Proof. vm_compute. auto. Qed.




(** C4, amended. In the arithmetic of the script (binary64, with the
    host's Math.pow), every scheduled note-on is the note-on of some repeat
    i below the repeat count, sent at releaseBeat + delay + spacing * i,
    with spacing = numerator / denominator and the repeat count
    min(round(quantity), round(voices)), both floored at 1. Its velocity is
    round(baseVelocity * factor * envelopeAtTime(i * spacing, attack, hold,
    decay, sustain, release, span)) clamped to 1..127, where the factor is
    velocityDecay^i when velocityDecay is positive and 1 when velocityDecay
    is 0 (or anything not positive); the stage durations are the menu
    entries and the span is spacing * max(0, count - 1) + release. *)
Theorem tail_velocity_binary64
    (pow : PrimFloat.float → PrimFloat.float → PrimFloat.float)
    (ps : Tremolo64.Params) (src : Midi.Event)
    (lengthBeats releaseBeat : PrimFloat.float)
    (out : list Tremolo64.Scheduled) (s : Tremolo64.Scheduled) :
  Tremolo64.createTailRepeats pow ps src lengthBeats releaseBeat = Some out →
  In s out →
  Tremolo64.kind s = Midi.NoteOn →
  ∃ (pl : Tremolo64.Plan) (count : Z) (n : nat),
    Tremolo64.planOf ps = Some pl
    ∧ Tremolo64.envDurationFromMenu ps Tremolo.ATTACK
      = Some (Tremolo64.envA pl)
    ∧ Tremolo64.envDurationFromMenu ps Tremolo.HOLD
      = Some (Tremolo64.envH pl)
    ∧ Tremolo64.envDurationFromMenu ps Tremolo.ENV_DECAY
      = Some (Tremolo64.envD pl)
    ∧ Tremolo64.envDurationFromMenu ps Tremolo.RELEASE
      = Some (Tremolo64.envR pl)
    ∧ Tremolo64.repeats pl
      = Binary64.min
          (Binary64.max 1%float
             (Binary64.round (Tremolo64.param ps Tremolo.QUANTITY)))
          (Binary64.max 1%float
             (Binary64.round (Tremolo64.param ps Tremolo.VOICES)))
    ∧ Binary64.tripCount (Tremolo64.repeats pl) = Some count
    ∧ Z.of_nat n < count
    ∧ let i := Binary64.ofZ (Z.of_nat n) in
      let spacing := (Tremolo64.param ps Tremolo.NUMERATOR
                      / Tremolo64.param ps Tremolo.DENOMINATOR)%float in
      let span := (spacing * Binary64.max 0 (Tremolo64.repeats pl - 1)
                   + Tremolo64.envR pl)%float in
      let env := Tremolo64.envelopeAtTime (i * spacing)%float
                   (Tremolo64.envA pl) (Tremolo64.envH pl) (Tremolo64.envD pl)
                   (Tremolo64.param ps Tremolo.SUSTAIN) (Tremolo64.envR pl)
                   span in
      let base := Binary64.ofZ (Midi.velocity src) in
      let decay := Tremolo64.param ps Tremolo.DECAY in
      Tremolo64.atBeat s
      = (releaseBeat + Tremolo64.param ps Tremolo.DELAY + spacing * i)%float
      ∧ (PrimFloat.ltb 0%float decay = true →
         Tremolo64.velocity s
         = Tremolo64.specVelocity base (pow decay i) env)
      ∧ (PrimFloat.ltb 0%float decay = false →
         Tremolo64.velocity s = Tremolo64.specVelocity base 1%float env).
Proof.
  unfold Tremolo64.createTailRepeats. intros Hret Hin Hk.
  destruct (Tremolo64.planOf ps) as [pl|] eqn:Epl; [|done].
  destruct (planOf64_fields ps pl Epl)
    as (HA & HH & HD & HR & HS & Hsp & Hrep & Hspan).
  destruct (PrimFloat.leb (Tremolo64.spacing pl) 0%float) eqn:Esp.
  { injection Hret as <-. done. }
  destruct (Binary64.tripCount (Tremolo64.repeats pl)) as [count|] eqn:Ec;
    [|done].
  injection Hret as <-.
  destruct (tailLoop64_note_on pow ps pl src releaseBeat _ _ s Hin Hk)
    as (j & Hj & Hb & Hv).
  assert (Hq : Tremolo64.spacing pl
               = (Tremolo64.param ps Tremolo.NUMERATOR
                  / Tremolo64.param ps Tremolo.DENOMINATOR)%float).
  { rewrite Hsp. apply spacingOf64_quotient. by rewrite <- Hsp. }
  exists pl, count, j.
  split; [done|]. split; [done|]. split; [done|]. split; [done|].
  split; [done|]. split; [exact Hrep|]. split; [done|]. split; [lia|].
  cbv zeta. rewrite <- Hq, <- HS, <- Hspan.
  split; [exact Hb|].
  rewrite Hv, tailVelocity64_spec.
  split; intros Hd; by rewrite Hd.
Qed.

(** C4, amended, at the second repeat of the default controls. *)
Lemma tail_velocity_binary64_witness :
  let src := {| Midi.kind := Midi.NoteOn; Midi.pitch := 69;
                Midi.velocity := 100; Midi.channel := 1;
                Midi.beatPos := None |} in
  let ps := Tremolo64.defaultParams in
  let pow := Tremolo64.examplePow in
  let out := default []
               (Tremolo64.createTailRepeats pow ps src 1%float 4%float) in
  let s := nth 2 out {| Tremolo64.kind := Midi.Other;
                        Tremolo64.pitch := 0%float;
                        Tremolo64.velocity := 0%float;
                        Tremolo64.channel := 0;
                        Tremolo64.atBeat := 0%float |} in
  Tremolo64.createTailRepeats pow ps src 1%float 4%float = Some out
  ∧ In s out
  ∧ Tremolo64.kind s = Midi.NoteOn
  ∧ Tremolo64.velocity s = 100%float
  ∧ ∃ (pl : Tremolo64.Plan) (count : Z) (n : nat),
    Tremolo64.planOf ps = Some pl
    ∧ Tremolo64.envDurationFromMenu ps Tremolo.ATTACK
      = Some (Tremolo64.envA pl)
    ∧ Tremolo64.envDurationFromMenu ps Tremolo.HOLD
      = Some (Tremolo64.envH pl)
    ∧ Tremolo64.envDurationFromMenu ps Tremolo.ENV_DECAY
      = Some (Tremolo64.envD pl)
    ∧ Tremolo64.envDurationFromMenu ps Tremolo.RELEASE
      = Some (Tremolo64.envR pl)
    ∧ Tremolo64.repeats pl
      = Binary64.min
          (Binary64.max 1%float
             (Binary64.round (Tremolo64.param ps Tremolo.QUANTITY)))
          (Binary64.max 1%float
             (Binary64.round (Tremolo64.param ps Tremolo.VOICES)))
    ∧ Binary64.tripCount (Tremolo64.repeats pl) = Some count
    ∧ Z.of_nat n < count
    ∧ let i := Binary64.ofZ (Z.of_nat n) in
      let spacing := (Tremolo64.param ps Tremolo.NUMERATOR
                      / Tremolo64.param ps Tremolo.DENOMINATOR)%float in
      let span := (spacing * Binary64.max 0 (Tremolo64.repeats pl - 1)
                   + Tremolo64.envR pl)%float in
      let env := Tremolo64.envelopeAtTime (i * spacing)%float
                   (Tremolo64.envA pl) (Tremolo64.envH pl) (Tremolo64.envD pl)
                   (Tremolo64.param ps Tremolo.SUSTAIN) (Tremolo64.envR pl)
                   span in
      let base := Binary64.ofZ (Midi.velocity src) in
      let decay := Tremolo64.param ps Tremolo.DECAY in
      Tremolo64.atBeat s
      = (4 + Tremolo64.param ps Tremolo.DELAY + spacing * i)%float
      ∧ (PrimFloat.ltb 0%float decay = true →
         Tremolo64.velocity s
         = Tremolo64.specVelocity base (pow decay i) env)
      ∧ (PrimFloat.ltb 0%float decay = false →
         Tremolo64.velocity s = Tremolo64.specVelocity base 1%float env).
Proof.
  intros src ps pow out s.
  assert (Hret : Tremolo64.createTailRepeats pow ps src 1%float 4%float
                 = Some out) by (vm_compute; reflexivity).
  assert (Hin : In s out) by (vm_compute; auto).
  assert (Hk : Tremolo64.kind s = Midi.NoteOn) by reflexivity.
  split; [exact Hret|]. split; [exact Hin|]. split; [exact Hk|].
  split; [vm_compute; reflexivity|].
  exact (tail_velocity_binary64 pow ps src 1%float 4%float out s Hret Hin Hk).
Defined.

End Tail64Velocity.

(** C2 as stated fails for the tail generator: its [ProcessMIDI] never
    looks at the transport, so a note opened while playing is still in
    [activeNotes] after the transport stopped, and the note-off that
    arrives after the restart is matched with it and schedules a tail. *)
Lemma tail_state_survives_stop :
  let tick b p := Tremolo.Tick (Some {| Midi.playing := p;
                                     Midi.blockStartBeat := b;
                                     Midi.meterNumerator := 4;
                                     Midi.meterDenominator := 4 |}) in
  let note k := {| Midi.kind := k; Midi.pitch := 69; Midi.velocity := 100;
                   Midi.channel := 1; Midi.beatPos := None |} in
  let stopped :=
    fst (Tremolo.run Tremolo.defaultParams Tremolo.initialState
           [tick 0%Q true; Tremolo.Event (note Midi.NoteOn);
            tick 1%Q true; tick 2%Q false]) in
  let resumed := Tremolo.ProcessMIDI stopped
                   (Some {| Midi.playing := true; Midi.blockStartBeat := 8;
                            Midi.meterNumerator := 4;
                            Midi.meterDenominator := 4 |}) in
  Tremolo.activeNotes stopped !! "69:1"
  = Some {| Tremolo.on := note Midi.NoteOn; Tremolo.startBeat := 0 |}
  ∧ Tremolo.activeNotes stopped ≠ ∅
  ∧ map Tremolo.isNoteOn
        (Tremolo.createTailRepeats Tremolo.defaultParams (note Midi.NoteOn) 8 8)
    = [true; false; true; false]
  ∧ snd (Tremolo.HandleMIDI Tremolo.defaultParams resumed (note Midi.NoteOff))
    = (map Tremolo.SendAtBeat
         (Tremolo.createTailRepeats Tremolo.defaultParams (note Midi.NoteOn) 8 8)
       ++ [Tremolo.Send (note Midi.NoteOff)])%list.
Proof.
  intros tick note stopped resumed.
  assert (Hl : Tremolo.activeNotes stopped !! "69:1"
               = Some {| Tremolo.on := note Midi.NoteOn; Tremolo.startBeat := 0 |})
    by (vm_compute; reflexivity).
  split; [exact Hl|]. split; [|split].
  - intros He. rewrite He in Hl. by rewrite lookup_empty in Hl.
  - vm_compute. reflexivity.
  - vm_compute. reflexivity.
Qed.

(** C2, amended. On a tick that reports the transport stopped after a tick
    that reported it playing, the chord logger clears its current bar and
    its bar pitch list and flushes nothing, so a note collected before the
    stop never reaches a flush. The tail generator has no such reset: its
    [ProcessMIDI] only records the block start beat and leaves the
    active-note map as it is, on every tick. *)
Theorem transport_stop_resets_chord_logger
    (stA : ChordEnumerator.State) (stB : Tremolo.State) (t : Midi.TimingInfo) :
  ChordEnumerator.lastPlayed stA = true →
  Midi.playing t = false →
  ChordEnumerator.ProcessMIDI stA t
  = ({| ChordEnumerator.currentBar := None;
        ChordEnumerator.barPitches := [];
        ChordEnumerator.lastPlayed := false |}, [])
  ∧ ∀ info, Tremolo.activeNotes (Tremolo.ProcessMIDI stB info) = Tremolo.activeNotes stB.
Proof.
  intros Hlast Hplay. split.
  - unfold ChordEnumerator.ProcessMIDI. by rewrite Hplay, Hlast.
  - by intros [info|].
Qed.

(** C2, amended, at a stop on beat 6 with two notes collected in bar 2. *)
Lemma transport_stop_resets_chord_logger_witness :
  let stA := {| ChordEnumerator.currentBar := Some 1;
                ChordEnumerator.barPitches := [60; 64];
                ChordEnumerator.lastPlayed := true |} in
  let t := {| Midi.playing := false; Midi.blockStartBeat := 6;
              Midi.meterNumerator := 4; Midi.meterDenominator := 4 |} in
  ChordEnumerator.ProcessMIDI stA t
  = ({| ChordEnumerator.currentBar := None;
        ChordEnumerator.barPitches := [];
        ChordEnumerator.lastPlayed := false |}, [])
  ∧ ∀ info, Tremolo.activeNotes (Tremolo.ProcessMIDI Tremolo.initialState info)
            = Tremolo.activeNotes Tremolo.initialState.
Proof.
  intros stA t.
  apply (transport_stop_resets_chord_logger stA Tremolo.initialState t);
    reflexivity.
Defined.

(** ** Further properties of the chord namer *)

Section ChordNamerMore.

Import ChordEnumerator.

(** Two strictly ascending lists with the same members are the same
    list. *)
Lemma strict_sorted_ext (l1 l2 : list Z) :
  StronglySorted Z.lt l1 → StronglySorted Z.lt l2 →
  (∀ x, x ∈ l1 ↔ x ∈ l2) → l1 = l2.
Proof.
  intros H1 H2 Hmem.
  assert (Hnd : ∀ l, StronglySorted Z.lt l → NoDup l).
  { induction 1 as [|x l _ IH Hall]; constructor; [|done].
    rewrite Forall_forall in Hall. intros Hx. specialize (Hall x Hx). lia. }
  apply (StronglySorted_unique_strong Z.lt); [|done|done|].
  - intros x1 x2 _ _ ? ?. lia.
  - apply NoDup_Permutation; auto.
Qed.

Lemma uniqSorted_ext (l l' : list Z) :
  (∀ x, x ∈ l ↔ x ∈ l') → uniqSorted l = uniqSorted l'.
Proof.
  intros Hmem. apply strict_sorted_ext; try apply uniqSorted_strict.
  intros x. by rewrite !elem_of_uniqSorted.
Qed.

Lemma uniqSorted_fixed (l : list Z) :
  StronglySorted Z.lt l → uniqSorted l = l.
Proof.
  intros Hl. apply strict_sorted_ext; [apply uniqSorted_strict|done|].
  intros x. apply elem_of_uniqSorted.
Qed.

Lemma pcsFromPitches_strict (l : list Z) :
  StronglySorted Z.lt (pcsFromPitches l).
Proof. apply merge_sort_elements_strict. Qed.

(** Reading back the key of an integer gives the integer. *)
Lemma digitValue_char (n : N) :
  (n < 10)%N → JS.digitValue (pretty_N_char n) = Some (Z.of_N n).
Proof.
  intros Hn.
  assert (n = 0 ∨ n = 1 ∨ n = 2 ∨ n = 3 ∨ n = 4 ∨ n = 5 ∨ n = 6 ∨ n = 7
          ∨ n = 8 ∨ n = 9)%N as H by lia.
  repeat destruct H as [->|H]; try subst n; reflexivity.
Qed.

Lemma digit_not_sign (c : ascii) (d : Z) :
  JS.digitValue c = Some d →
  JS.isBlank c = false ∧ Ascii.eqb c "-" = false ∧ Ascii.eqb c "+" = false.
Proof.
  destruct c as [[] [] [] [] [] [] [] []]; vm_compute; intros; by simplify_eq.
Qed.

Lemma parseDigits_go (x : N) (s : string) :
  (0 < x)%N →
  JS.parseDigits (pretty_N_go x s) None = JS.parseDigits s (Some (Z.of_N x))
  ∧ ∃ c rest d, pretty_N_go x s = String c rest ∧ JS.digitValue c = Some d.
Proof.
  revert s. induction (N.lt_wf_0 x) as [x _ IH]; intros s Hx.
  rewrite pretty_N_go_step by done.
  pose proof (digitValue_char (x `mod` 10)%N) as Hd.
  specialize (Hd ltac:(apply N.mod_lt; lia)).
  destruct (N.eq_0_gt_0_cases (x `div` 10)) as [E|Hpos].
  - rewrite E, pretty_N_go_0. cbn [JS.parseDigits]. rewrite Hd. split.
    + cbn [default]. do 2 f_equal.
      pose proof (N.Div0.div_mod x 10). lia.
    + by eexists _, _, _.
  - destruct (IH (x `div` 10)%N (N.div_lt x 10 Hx eq_refl)
                (String (pretty_N_char (x `mod` 10)) s) Hpos) as [-> Hhd].
    split; [|exact Hhd].
    cbn [JS.parseDigits]. rewrite Hd. cbn [default]. unfold id.
    do 2 f_equal. pose proof (N.Div0.div_mod x 10). lia.
Qed.

Lemma parseInt_pos (p : positive) :
  JS.parseInt (pretty (Npos p)) = Some (Zpos p)
  ∧ JS.parseDigits (pretty (Npos p)) None = Some (Zpos p).
Proof.
  unfold pretty, pretty_N. rewrite decide_False by done.
  destruct (parseDigits_go (Npos p) "" ltac:(lia))
    as [Hp (c & rest & d & E & Hc)].
  split; [|by rewrite Hp].
  unfold JS.parseInt. rewrite E in *.
  destruct (digit_not_sign c d Hc) as (Hb & Hm & Hpl).
  cbn [JS.trimStart]. rewrite Hb, Hm, Hpl. by rewrite Hp.
Qed.

Lemma parseInt_toKey (x : Z) : JS.parseInt (JS.toKey x) = Some x.
Proof.
  unfold JS.toKey, pretty, pretty_Z. destruct x as [|p|p].
  - reflexivity.
  - apply parseInt_pos.
  - unfold JS.parseInt.
    change ("-" +:+ pretty p) with (String "-" (pretty (Npos p))).
    cbn [JS.trimStart]. change (JS.isBlank "-") with false. cbv iota.
    change (Ascii.eqb "-" "-") with true. cbv iota.
    destruct (parseInt_pos p) as [_ ->]. reflexivity.
Qed.

Lemma merge_sort_perm (l k : list Z) :
  l ≡ₚ k → merge_sort Z.le l = merge_sort Z.le k.
Proof.
  intros H. apply (Sorted_unique Z.le).
  - apply Sorted_merge_sort; apply _.
  - apply Sorted_merge_sort; apply _.
  - by rewrite !merge_sort_Permutation.
Qed.

Lemma mapM_total {A B} (f : A → option B) (d : B) (l : list A) :
  Forall (fun k => is_Some (f k)) l →
  mapM f l = Some ((fun k => default d (f k)) <$> l).
Proof.
  induction 1 as [|k ks [y Hy] _ IH]; [done|].
  cbn. rewrite Hy. cbn. by rewrite IH.
Qed.

(** Whatever the order in which the keys are enumerated, reading them back
    and sorting gives the sorted set of the integers. *)
Lemma uniqSortedFromKeys_spec (l : list Z) (keys : list string) :
  keys ≡ₚ elements (keysOf l) →
  uniqSortedFromKeys keys = Some (uniqSorted l).
Proof.
  intros Hk.
  set (g := fun k => default 0 (JS.parseInt k)).
  assert (Hkey : ∀ k, k ∈ keys ↔ ∃ x, x ∈ l ∧ k = JS.toKey x).
  { intros k. rewrite Hk. unfold keysOf.
    rewrite elem_of_elements, elem_of_list_to_set, list_elem_of_fmap.
    split; intros (x & H1 & H2); by exists x. }
  assert (Hm : mapM JS.parseInt keys = Some (g <$> keys)).
  { apply mapM_total.
    apply Forall_forall. intros k Hin. apply Hkey in Hin as (x & _ & ->).
    by rewrite parseInt_toKey. }
  unfold uniqSortedFromKeys. rewrite Hm. cbn. f_equal.
  apply merge_sort_perm. apply NoDup_Permutation.
  - apply NoDup_fmap_2_strong.
    + intros k1 k2 H1 H2. apply Hkey in H1 as (x1 & _ & ->).
      apply Hkey in H2 as (x2 & _ & ->). unfold g.
      rewrite !parseInt_toKey. cbn. by intros ->.
    + rewrite Hk. apply NoDup_elements.
  - apply NoDup_elements.
  - intros x. rewrite list_elem_of_fmap, elem_of_elements, elem_of_list_to_set.
    split.
    + intros (k & -> & Hin). apply Hkey in Hin as (y & Hy & ->).
      unfold g. by rewrite parseInt_toKey.
    + intros Hx. exists (JS.toKey x). split.
      * unfold g. by rewrite parseInt_toKey.
      * apply Hkey. by exists x.
Qed.

Lemma append_empty_r (s : string) : (s ++ "")%string = s.
Proof.
  induction s as [|c s IH]; [done|].
  change (String c (s ++ "")%string = String c s). by rewrite IH.
Qed.

Lemma rem_rem_mod (pc : Z) : Z.rem (Z.rem pc 12 + 12) 12 = pc `mod` 12.
Proof. Z.to_euclidean_division_equations. lia. Qed.

Lemma arrayGet_names (names : list string) (k : Z) :
  length names = 12%nat → 0 ≤ k < 12 → arrayGet names k ∈ names.
Proof.
  intros Hlen Hk. unfold arrayGet.
  destruct (Z.ltb_spec k 0); [lia|].
  apply list_elem_of_In, nth_In. lia.
Qed.

(** Shifting every pitch by an octave shifts the sorted pitches and keeps
    the pitch classes. *)
Lemma uniqSorted_shift (l : list Z) (k : Z) :
  uniqSorted (map (fun p => p + k) l) = map (fun p => p + k) (uniqSorted l).
Proof.
  apply strict_sorted_ext; [apply uniqSorted_strict| |].
  - pose proof (uniqSorted_strict l) as Hs.
    induction Hs as [|x u _ IH Hall]; constructor; [done|].
    apply Forall_forall. intros y Hy.
    change (map ?f ?l) with (f <$> l) in Hy.
    apply list_elem_of_fmap in Hy as (z & -> & Hz).
    rewrite Forall_forall in Hall. specialize (Hall z Hz). lia.
  - intros x. rewrite elem_of_uniqSorted.
    change (map ?f ?l) with (f <$> l). rewrite !list_elem_of_fmap.
    split; intros (z & -> & Hz); exists z; split; try done;
      by apply elem_of_uniqSorted.
Qed.

Lemma pcsFromPitches_ext (l l' : list Z) :
  (∀ c, (∃ p, p ∈ l ∧ c = JS.rem p 12) ↔ (∃ p, p ∈ l' ∧ c = JS.rem p 12)) →
  pcsFromPitches l = pcsFromPitches l'.
Proof.
  intros H. apply strict_sorted_ext; try apply pcsFromPitches_strict.
  intros c. by rewrite !elem_of_pcsFromPitches.
Qed.

Lemma hd_map_shift (l : list Z) (k : Z) :
  l ≠ [] → hd 0 (map (fun p => p + k) l) = hd 0 l + k.
Proof. by destruct l. Qed.

Lemma rem_add_12 (p : Z) : 0 ≤ p → JS.rem (p + 12) 12 = JS.rem p 12.
Proof. intros. unfold JS.rem. Z.to_euclidean_division_equations. lia. Qed.

End ChordNamerMore.

(** X1. [pcName] is defined on every integer, negative ones included: it
    depends only on the pitch class modulo 12 (so it is unchanged by any
    number of octaves) and always returns an entry of the selected name
    table, never an out-of-table read. *)
Theorem pcName_total_periodic (cfg : ChordEnumerator.Params) (pc k : Z) :
  ChordEnumerator.pcName cfg (pc + 12 * k) = ChordEnumerator.pcName cfg pc
  ∧ ChordEnumerator.pcName cfg pc
    ∈ (if ChordEnumerator.pitchClassStyle cfg =? 0
       then ChordEnumerator.NAMES_SHARPS else ChordEnumerator.NAMES_FLATS).
Proof.
  unfold ChordEnumerator.pcName, JS.rem. rewrite !rem_rem_mod.
  split.
  - replace (pc + 12 * k) with (pc + k * 12) by lia.
    by rewrite Z.mod_add by lia.
  - pose proof (Z.mod_pos_bound pc 12 ltac:(lia)).
    destruct (ChordEnumerator.pitchClassStyle cfg =? 0);
      by apply arrayGet_names.
Qed.

(** X2. On integers that a double holds exactly, [uniqSorted] read line
    by line (an object keyed by the decimal strings of the numbers, the
    keys read back with [parseInt] in whatever order they are enumerated,
    the result sorted numerically) returns the members of its input, each
    once, in strictly ascending order; applying it twice changes
    nothing. *)
Theorem uniqSorted_sorted_set (l : list Z) (keys : list string) :
  Forall JS.isSafeInteger l →
  keys ≡ₚ elements (ChordEnumerator.keysOf l) →
  ∃ out,
    ChordEnumerator.uniqSortedFromKeys keys = Some out
    ∧ out = ChordEnumerator.uniqSorted l
    ∧ StronglySorted Z.lt out
    ∧ (∀ x, x ∈ out ↔ x ∈ l)
    ∧ ChordEnumerator.uniqSorted out = out.
Proof.
  intros _ Hk. exists (ChordEnumerator.uniqSorted l).
  split; [by apply uniqSortedFromKeys_spec|]. split; [done|].
  split; [apply uniqSorted_strict|]. split.
  - intros x. apply elem_of_uniqSorted.
  - apply uniqSorted_fixed, uniqSorted_strict.
Qed.

(** X2 on the pitches 64, 60, 67, 60, whose keys are enumerated as
    60, 64, 67. *)
Lemma uniqSorted_sorted_set_witness :
  ChordEnumerator.uniqSortedFromKeys ["60"; "64"; "67"] = Some [60; 64; 67]
  ∧ ∃ out,
    ChordEnumerator.uniqSortedFromKeys ["60"; "64"; "67"] = Some out
    ∧ out = ChordEnumerator.uniqSorted [64; 60; 67; 60]
    ∧ StronglySorted Z.lt out
    ∧ (∀ x, x ∈ out ↔ x ∈ [64; 60; 67; 60])
    ∧ ChordEnumerator.uniqSorted out = out.
Proof.
  split; [reflexivity|].
  apply (uniqSorted_sorted_set [64; 60; 67; 60] ["60"; "64"; "67"]).
  - repeat constructor; unfold JS.isSafeInteger; simpl; lia.
  - apply (bool_decide_unpack _). vm_compute. exact I.
Defined.

(** X3. The chord namer depends only on the set of pitches it is given:
    two lists with the same members, in any order and with any
    repetitions, get the same result. *)
Theorem chordName_order_independent
    (cfg : ChordEnumerator.Params) (l l' : list Z) :
  (∀ x, x ∈ l ↔ x ∈ l') →
  ChordEnumerator.chordNameFromLowestRoot cfg l
  = ChordEnumerator.chordNameFromLowestRoot cfg l'.
Proof.
  intros Hmem. pose proof (uniqSorted_ext l l' Hmem) as Hu.
  destruct l as [|a l], l' as [|a' l'].
  - reflexivity.
  - exfalso. apply (elem_of_nil a'), Hmem, elem_of_cons. by left.
  - exfalso. apply (elem_of_nil a), Hmem, elem_of_cons. by left.
  - unfold ChordEnumerator.chordNameFromLowestRoot. by rewrite Hu.
Qed.

(** X3 on the D minor triad, played in two orders and with its root
    repeated. *)
Lemma chordName_order_independent_witness :
  ChordEnumerator.chordNameFromLowestRoot ChordEnumerator.defaultParams
    [62; 65; 69]
  = ChordEnumerator.chordNameFromLowestRoot ChordEnumerator.defaultParams
      [69; 62; 65; 62].
Proof.
  apply chordName_order_independent.
  intros x. rewrite !elem_of_cons, !elem_of_nil. tauto.
Defined.

(** X4. Moving every pitch of a non-empty list of non-negative pitches up
    an octave keeps the label, the pitch classes and the intervals, and
    moves the bass and the reported pitches up by 12. *)
Theorem chordName_octave_invariant
    (cfg : ChordEnumerator.Params) (l : list Z) :
  l ≠ [] →
  Forall (fun p => 0 ≤ p) l →
  ∃ info info',
    ChordEnumerator.chordNameFromLowestRoot cfg l = ChordEnumerator.Chord info
    ∧ ChordEnumerator.chordNameFromLowestRoot cfg (map (fun p => p + 12) l)
      = ChordEnumerator.Chord info'
    ∧ ChordEnumerator.name info' = ChordEnumerator.name info
    ∧ ChordEnumerator.pcs info' = ChordEnumerator.pcs info
    ∧ ChordEnumerator.intervals info' = ChordEnumerator.intervals info
    ∧ ChordEnumerator.bass info' = ChordEnumerator.bass info + 12
    ∧ ChordEnumerator.pitches info'
      = map (fun p => p + 12) (ChordEnumerator.pitches info).
Proof.
  intros Hne Hpos. rewrite Forall_forall in Hpos.
  pose proof (uniqSorted_nonempty l Hne) as Hune.
  assert (Hupos : ∀ p, p ∈ ChordEnumerator.uniqSorted l → 0 ≤ p).
  { intros p Hp. apply Hpos. by apply elem_of_uniqSorted. }
  assert (Hhd : hd 0 (ChordEnumerator.uniqSorted (map (fun p => p + 12) l))
                = hd 0 (ChordEnumerator.uniqSorted l) + 12).
  { rewrite uniqSorted_shift. by apply hd_map_shift. }
  assert (Hroot : ChordEnumerator.rootPCOf
                    (ChordEnumerator.uniqSorted (map (fun p => p + 12) l))
                  = ChordEnumerator.rootPCOf (ChordEnumerator.uniqSorted l)).
  { unfold ChordEnumerator.rootPCOf. rewrite Hhd. apply rem_add_12.
    apply Hupos. by apply hd_elem. }
  assert (Hpcs : ChordEnumerator.pcsFromPitches
                   (ChordEnumerator.uniqSorted (map (fun p => p + 12) l))
                 = ChordEnumerator.pcsFromPitches
                     (ChordEnumerator.uniqSorted l)).
  { rewrite uniqSorted_shift. apply pcsFromPitches_ext. intros c.
    change (map ?f ?l) with (f <$> l). split.
    - intros (p & Hp & ->). apply list_elem_of_fmap in Hp as (q & -> & Hq).
      exists q. split; [done|]. apply rem_add_12. by apply Hupos.
    - intros (q & Hq & ->). exists (q + 12). split.
      + apply list_elem_of_fmap. by exists q.
      + symmetry. apply rem_add_12. by apply Hupos. }
  destruct l as [|a l]; [done|].
  unfold ChordEnumerator.chordNameFromLowestRoot.
  cbn [map]. cbv zeta.
  change ((a + 12) :: map (fun p => p + 12) l)
    with (map (fun p => p + 12) (a :: l)).
  rewrite Hroot, Hpcs, Hhd.
  eexists _, _. split; [reflexivity|]. split; [reflexivity|].
  cbn [ChordEnumerator.name ChordEnumerator.pcs ChordEnumerator.intervals
       ChordEnumerator.bass ChordEnumerator.pitches].
  repeat split. apply uniqSorted_shift.
Qed.

(** X4 on the C minor seventh chord. *)
Lemma chordName_octave_invariant_witness :
  ∃ info info',
    ChordEnumerator.chordNameFromLowestRoot ChordEnumerator.defaultParams
      [48; 51; 55; 58] = ChordEnumerator.Chord info
    ∧ ChordEnumerator.chordNameFromLowestRoot ChordEnumerator.defaultParams
        (map (fun p => p + 12) [48; 51; 55; 58])
      = ChordEnumerator.Chord info'
    ∧ ChordEnumerator.name info' = ChordEnumerator.name info
    ∧ ChordEnumerator.pcs info' = ChordEnumerator.pcs info
    ∧ ChordEnumerator.intervals info' = ChordEnumerator.intervals info
    ∧ ChordEnumerator.bass info' = ChordEnumerator.bass info + 12
    ∧ ChordEnumerator.pitches info'
      = map (fun p => p + 12) (ChordEnumerator.pitches info).
Proof.
  apply chordName_octave_invariant; [discriminate|].
  repeat constructor; lia.
Defined.

(** X5. When all pitches of a non-empty list of non-negative pitches have
    the same pitch class (one note, possibly doubled in other octaves), the
    label is the bare name of that pitch class, with one pitch class and
    the interval set [0]: the interval-list fallback is not used. *)
Theorem chordName_single_pitch_class
    (cfg : ChordEnumerator.Params) (l : list Z) (c : Z) :
  l ≠ [] →
  Forall (fun p => 0 ≤ p ∧ p `mod` 12 = c) l →
  ∃ info,
    ChordEnumerator.chordNameFromLowestRoot cfg l = ChordEnumerator.Chord info
    ∧ ChordEnumerator.name info = ChordEnumerator.pcName cfg c
    ∧ ChordEnumerator.pcs info = [c]
    ∧ ChordEnumerator.intervals info = [0].
Proof.
  intros Hne Hall. rewrite Forall_forall in Hall.
  pose proof (uniqSorted_nonempty l Hne) as Hune.
  assert (Hu : ∀ p, p ∈ ChordEnumerator.uniqSorted l → JS.rem p 12 = c).
  { intros p Hp. rewrite elem_of_uniqSorted in Hp.
    destruct (Hall p Hp) as [Hp0 <-]. unfold JS.rem.
    apply Z.rem_mod_nonneg; lia. }
  assert (Hroot : ChordEnumerator.rootPCOf (ChordEnumerator.uniqSorted l) = c).
  { apply Hu. by apply hd_elem. }
  assert (Hpcs : ChordEnumerator.pcsFromPitches (ChordEnumerator.uniqSorted l)
                 = [c]).
  { apply strict_sorted_ext; [apply pcsFromPitches_strict|by repeat constructor|].
    intros x. rewrite elem_of_pcsFromPitches, elem_of_cons, elem_of_nil.
    split.
    - intros (p & Hp & ->). left. by apply Hu.
    - intros [->|[]]. exists (hd 0 (ChordEnumerator.uniqSorted l)).
      split; [by apply hd_elem|done]. }
  assert (Hints : ChordEnumerator.intervalsFromRootPC [c] c = [0]).
  { unfold ChordEnumerator.intervalsFromRootPC. cbn [map].
    replace (c - c + 12) with 12 by lia. reflexivity. }
  destruct l as [|a l]; [done|].
  unfold ChordEnumerator.chordNameFromLowestRoot. cbv zeta.
  rewrite Hroot, Hpcs, Hints.
  eexists. split; [reflexivity|].
  cbn [ChordEnumerator.name ChordEnumerator.pcs ChordEnumerator.intervals].
  repeat split.
  change (ChordEnumerator.triadQuality [0]) with "".
  change (ChordEnumerator.chordSuffix [0] "") with "".
  cbn [String.eqb negb orb length Nat.eqb].
  by rewrite !append_empty_r.
Qed.

(** X5 on a G doubled over three octaves. *)
Lemma chordName_single_pitch_class_witness :
  ∃ info,
    ChordEnumerator.chordNameFromLowestRoot ChordEnumerator.defaultParams
      [67; 43; 55; 67] = ChordEnumerator.Chord info
    ∧ ChordEnumerator.name info
      = ChordEnumerator.pcName ChordEnumerator.defaultParams 7
    ∧ ChordEnumerator.pcs info = [7]
    ∧ ChordEnumerator.intervals info = [0].
Proof.
  apply chordName_single_pitch_class; [discriminate|].
  repeat constructor; lia.
Defined.

Section FallbackFacts.

Import ChordEnumerator.

Lemma nil_in_sublists (L : list Z) : In [] (sublists L).
Proof.
  induction L as [|x L IH]; [by left|]. simpl. apply in_or_app. by right.
Qed.

(** A strictly ascending list drawn from a strictly ascending list [L] is
    one of the sublists of [L]. *)
Lemma sorted_in_sublists (L : list Z) :
  StronglySorted Z.lt L →
  ∀ ints, StronglySorted Z.lt ints → (∀ x, x ∈ ints → x ∈ L) →
          In ints (sublists L).
Proof.
  induction 1 as [|x L HL IH Hx]; intros ints Hs Hsub.
  - destruct ints as [|y t]; [by left|].
    exfalso. apply (elem_of_nil y), Hsub, elem_of_cons. by left.
  - rewrite Forall_forall in Hx. simpl. apply in_or_app.
    destruct Hs as [|y t Ht Hy]; [right; apply nil_in_sublists|].
    rewrite Forall_forall in Hy.
    assert (Hyin : y ∈ x :: L) by (apply Hsub, elem_of_cons; by left).
    apply elem_of_cons in Hyin as [->|Hyin].
    + left. apply in_map, IH; [done|]. intros z Hz.
      assert (Hzin : z ∈ x :: L) by (apply Hsub, elem_of_cons; by right).
      apply elem_of_cons in Hzin as [->|Hzin]; [|done].
      specialize (Hy x Hz). lia.
    + right. apply IH; [by constructor; [|apply Forall_forall]|].
      intros z Hz. specialize (Hsub z Hz).
      apply elem_of_cons in Hsub as [->|Hsub]; [|done].
      specialize (Hx y Hyin).
      apply elem_of_cons in Hz as [->|Hz]; [lia|].
      specialize (Hy x Hz). lia.
Qed.

Lemma bareLabelCheck_all :
  forallb bareLabelCheck (sublists [0; 1; 2; 3; 4; 5; 6; 7; 8; 9; 10; 11])
  = true.
Proof. vm_compute. reflexivity. Qed.

(** For an interval set as the namer builds it, quality and suffix are
    both empty exactly on the sets [0], [0,4], [0,7] and [0,4,7]. *)
Lemma bare_label_iff (ints : list Z) :
  StronglySorted Z.lt ints → 0 ∈ ints → Forall (fun d => 0 ≤ d ≤ 11) ints →
  (triadQuality ints = "" ∧ chordSuffix ints (triadQuality ints) = "")
  ↔ ints ∈ bareIntervalSets.
Proof.
  intros Hs H0 Hr.
  assert (Hin : In ints (sublists [0; 1; 2; 3; 4; 5; 6; 7; 8; 9; 10; 11])).
  { apply sorted_in_sublists; [|done|].
    - repeat (constructor; [|repeat constructor; lia]). constructor.
    - rewrite Forall_forall in Hr. intros x Hx. specialize (Hr x Hx).
      rewrite !elem_of_cons. lia. }
  pose proof bareLabelCheck_all as Hall.
  rewrite forallb_forall in Hall. specialize (Hall ints Hin).
  unfold bareLabelCheck in Hall. cbv zeta in Hall.
  apply has_elem in H0. rewrite H0 in Hall.
  apply Bool.eqb_prop in Hall.
  split.
  - intros [Hq Hsuf]. rewrite Hq in Hall at 1. rewrite Hsuf in Hall.
    simpl in Hall. symmetry in Hall. by apply bool_decide_eq_true in Hall.
  - intros Hb. rewrite (bool_decide_eq_true_2 _ Hb) in Hall.
    apply andb_true_iff in Hall as [Hq Hsuf].
    by apply String.eqb_eq in Hq, Hsuf.
Qed.

(** Pitch classes and intervals of a non-empty list of non-negative
    pitches. *)
Lemma pcs_intervals_wellformed (l : list Z) :
  l ≠ [] → Forall (fun p => 0 ≤ p) l →
  let U := uniqSorted l in
  let root := rootPCOf U in
  let ints := intervalsFromRootPC (pcsFromPitches U) root in
  0 ≤ root ≤ 11
  ∧ root ∈ pcsFromPitches U
  ∧ Forall (fun c => 0 ≤ c ≤ 11) (pcsFromPitches U)
  ∧ StronglySorted Z.lt ints ∧ 0 ∈ ints
  ∧ Forall (fun d => 0 ≤ d ≤ 11) ints.
Proof.
  intros Hne Hpos U root ints. rewrite Forall_forall in Hpos.
  assert (HU : ∀ p, p ∈ U → 0 ≤ p).
  { intros p Hp. apply Hpos. by apply elem_of_uniqSorted. }
  assert (Hhd : hd 0 U ∈ U) by (apply hd_elem; by apply uniqSorted_nonempty).
  assert (Hroot : 0 ≤ root ≤ 11) by (apply rem12_range; by apply HU).
  assert (Hrin : root ∈ pcsFromPitches U).
  { apply elem_of_pcsFromPitches. by exists (hd 0 U). }
  assert (Hpcs : Forall (fun c => 0 ≤ c ≤ 11) (pcsFromPitches U)).
  { apply Forall_forall. intros c Hc.
    apply elem_of_pcsFromPitches in Hc as (p & Hp & ->).
    apply rem12_range. by apply HU. }
  repeat split; try done; try lia.
  - apply uniqSorted_strict.
  - apply elem_of_intervals. exists root. split; [done|].
    replace (root - root + 12) with 12 by lia. reflexivity.
  - apply Forall_forall. intros d Hd.
    apply elem_of_intervals in Hd as (c & Hc & ->).
    rewrite Forall_forall in Hpcs. by apply interval_range; [apply Hpcs|].
Qed.

Lemma interval_zero (c root : Z) :
  0 ≤ c ≤ 11 → 0 ≤ root ≤ 11 → JS.rem (c - root + 12) 12 = 0 → c = root.
Proof.
  unfold JS.rem. intros Hc Hr H.
  rewrite Z.rem_mod_nonneg in H by lia.
  assert (c - root + 12 = 12 * ((c - root + 12) / 12)).
  { rewrite (Z.div_mod (c - root + 12) 12) at 1 by lia. lia. }
  assert (0 < (c - root + 12) / 12 < 2).
  { split; [apply Z.div_str_pos; lia|apply Z.div_lt_upper_bound; lia]. }
  lia.
Qed.

(** One pitch class gives the interval set [0], and only one does. *)
Lemma single_pc_iff (pcs : list Z) (root : Z) :
  StronglySorted Z.lt pcs → Forall (fun c => 0 ≤ c ≤ 11) pcs →
  0 ≤ root ≤ 11 → root ∈ pcs →
  (length pcs = 1%nat ↔ intervalsFromRootPC pcs root = [0]).
Proof.
  intros Hs Hr Hroot Hin. rewrite Forall_forall in Hr. split.
  - destruct pcs as [|x [|y t]]; try done. intros _.
    apply elem_of_cons in Hin as [->|Hin]; [|by apply elem_of_nil in Hin].
    unfold intervalsFromRootPC. cbn [map].
    replace (x - x + 12) with 12 by lia. reflexivity.
  - intros Hi.
    assert (Hall : ∀ c, c ∈ pcs → c = root).
    { intros c Hc. apply interval_zero; [by apply Hr|done|].
      assert (Hd : JS.rem (c - root + 12) 12 ∈ intervalsFromRootPC pcs root).
      { apply elem_of_intervals. by exists c. }
      rewrite Hi in Hd. apply elem_of_cons in Hd as [Hd|Hd]; [done|].
      by apply elem_of_nil in Hd. }
    assert (Hp : pcs = [root]); [|by rewrite Hp].
    apply strict_sorted_ext; [done|by repeat constructor|].
    intros x. rewrite elem_of_cons, elem_of_nil. split.
    + intros Hx. left. by apply Hall.
    + intros [->|[]]. done.
Qed.

End FallbackFacts.

(** X6. For a non-empty list of non-negative pitches: when the interval
    set is the bare third [0,4] or the bare fifth [0,7] the label is the
    interval-list form [<root> (<interval>)]; and for every interval set
    other than [0,4], [0,7] and [0,4,7] the label is the root name followed
    by the quality token and the suffix, so the interval-list form is used
    for no other set. *)
Theorem chordName_fallback_sets
    (cfg : ChordEnumerator.Params) (l : list Z) :
  l ≠ [] →
  Forall (fun p => 0 ≤ p) l →
  ∃ info,
    ChordEnumerator.chordNameFromLowestRoot cfg l = ChordEnumerator.Chord info
    ∧ let ints := ChordEnumerator.intervals info in
      let root := ChordEnumerator.pcName cfg
                    (ChordEnumerator.rootPCOf (ChordEnumerator.pitches info)) in
      (ints ∈ [[0; 4]; [0; 7]] →
       ChordEnumerator.name info
       = root ++ " (" ++ JS.join "," (tail ints) ++ ")")
      ∧ (ints ∉ [[0; 4]; [0; 7]; [0; 4; 7]] →
         ChordEnumerator.name info
         = root ++ ChordEnumerator.triadQuality ints
           ++ ChordEnumerator.chordSuffix ints
                (ChordEnumerator.triadQuality ints)).
Proof.
  intros Hne Hpos.
  destruct (pcs_intervals_wellformed l Hne Hpos)
    as (Hroot & Hrin & Hpcs & Hs & H0 & Hr).
  pose proof (bare_label_iff _ Hs H0 Hr) as Hbare.
  pose proof (single_pc_iff _ _ (pcsFromPitches_strict _) Hpcs Hroot Hrin)
    as Hone.
  destruct l as [|a l]; [done|].
  unfold ChordEnumerator.chordNameFromLowestRoot. cbv zeta.
  set (U := ChordEnumerator.uniqSorted (a :: l)) in *.
  set (ints := ChordEnumerator.intervalsFromRootPC
                 (ChordEnumerator.pcsFromPitches U)
                 (ChordEnumerator.rootPCOf U)) in *.
  eexists. split; [reflexivity|].
  cbn [ChordEnumerator.name ChordEnumerator.intervals ChordEnumerator.pitches].
  split; intros Hi.
  - assert (Hb : ints ∈ ChordEnumerator.bareIntervalSets).
    { unfold ChordEnumerator.bareIntervalSets.
      rewrite !elem_of_cons, elem_of_nil in Hi. rewrite !elem_of_cons.
      tauto. }
    apply Hbare in Hb as [Hq Hsuf]. rewrite Hq in *. rewrite Hsuf.
    assert (Hlen : (length (ChordEnumerator.pcsFromPitches U) =? 1)%nat = false).
    { apply Nat.eqb_neq. intros Hlen. apply Hone in Hlen.
      rewrite Hlen in Hi. rewrite !elem_of_cons, elem_of_nil in Hi.
      destruct Hi as [Hi|[Hi|[]]]; discriminate. }
    rewrite Hlen. cbn [String.eqb negb orb].
    rewrite !elem_of_cons, elem_of_nil in Hi.
    destruct Hi as [->|[->|[]]]; reflexivity.
  - destruct (decide (ints = [0])) as [Hz|Hnz].
    + apply Hone in Hz. rewrite Hz. cbn [Nat.eqb].
      by rewrite !orb_true_r.
    + assert (Hnb : ¬ ints ∈ ChordEnumerator.bareIntervalSets).
      { unfold ChordEnumerator.bareIntervalSets. rewrite elem_of_cons.
        intros [?|?]; done. }
      destruct (String.eqb_spec (ChordEnumerator.triadQuality ints) "")
        as [Hq|Hq]; [|done].
      destruct (String.eqb_spec
                  (ChordEnumerator.chordSuffix ints
                     (ChordEnumerator.triadQuality ints)) "")
        as [Hsuf|Hsuf]; [|by rewrite orb_true_r].
      exfalso. apply Hnb, Hbare. done.
Qed.

(** X6 on a bare fifth. *)
Lemma chordName_fallback_sets_witness :
  (∃ info,
     ChordEnumerator.chordNameFromLowestRoot ChordEnumerator.defaultParams
       [48; 55] = ChordEnumerator.Chord info
     ∧ let ints := ChordEnumerator.intervals info in
       let root := ChordEnumerator.pcName ChordEnumerator.defaultParams
                     (ChordEnumerator.rootPCOf (ChordEnumerator.pitches info)) in
       (ints ∈ [[0; 4]; [0; 7]] →
        ChordEnumerator.name info
        = root ++ " (" ++ JS.join "," (tail ints) ++ ")")
       ∧ (ints ∉ [[0; 4]; [0; 7]; [0; 4; 7]] →
          ChordEnumerator.name info
          = root ++ ChordEnumerator.triadQuality ints
            ++ ChordEnumerator.chordSuffix ints
                 (ChordEnumerator.triadQuality ints)))
  ∧ ChordEnumerator.chordNameFromLowestRoot ChordEnumerator.defaultParams
      [48; 55]
    = ChordEnumerator.Chord
        {| ChordEnumerator.name := "C (7)"; ChordEnumerator.bass := 48;
           ChordEnumerator.pcs := [0; 7]; ChordEnumerator.pitches := [48; 55];
           ChordEnumerator.intervals := [0; 7] |}.
Proof.
  split; [|vm_compute; reflexivity].
  apply chordName_fallback_sets; [discriminate|].
  repeat constructor; lia.
Defined.

(** ** Further properties of the bar tracker and the bar reporter *)

(** X7. [flushBar] writes exactly two Trace lines for a bar that holds
    notes, the second being the semitone list of the bar's chord; for an
    empty bar it writes the one line "Bar N: (no notes)" when Log Empty
    Bars is Yes and nothing otherwise. *)
Theorem flushBar_lines
    (cfg : ChordEnumerator.Params) (n : Z) (bp : list Z) :
  match bp with
  | [] =>
    ChordEnumerator.flushBar cfg n bp
    = if ChordEnumerator.logEmptyBars cfg =? 1
      then ["Bar " ++ pretty n ++ ": (no notes)"] else []
  | _ :: _ =>
    ∃ info first,
      ChordEnumerator.chordNameFromLowestRoot cfg bp
      = ChordEnumerator.Chord info
      ∧ ChordEnumerator.flushBar cfg n bp
        = [first;
           "          semitones=" ++ JS.join "," (ChordEnumerator.intervals info)]
  end.
Proof.
  destruct bp as [|a bp]; [reflexivity|].
  destruct (chordName_shape cfg (a :: bp)) as (label & Heq & _); [done|].
  unfold ChordEnumerator.flushBar. rewrite Heq.
  eexists _, _. split; [reflexivity|].
  cbv zeta. reflexivity.
Qed.

Section BarTrackerMore.

Import ChordEnumerator.

Lemma flushLoop_backward (c b : Z) (bp : list Z) :
  b ≤ c → flushLoop c b bp = (c, bp, []).
Proof.
  intros Hle. simp flushLoop.
  destruct (Z_lt_dec c b) as [Hlt|Hge]; [lia|]. reflexivity.
Qed.

End BarTrackerMore.

(** X8. Accumulation is append-only between ticks: after any sequence of
    events with no tick in between, the bar pitch list is the old list
    followed by the pitches of the note-ons in arrival order (note-offs and
    other events add nothing), the tracked bar and the play flag are
    unchanged, every event was sent on, and nothing was flushed. *)
Theorem events_accumulate
    (st : ChordEnumerator.State) (events : list Midi.Event) :
  ChordEnumerator.run st (map ChordEnumerator.Event events)
  = ({| ChordEnumerator.currentBar := ChordEnumerator.currentBar st;
        ChordEnumerator.barPitches :=
          (ChordEnumerator.barPitches st
           ++ ChordEnumerator.noteOnPitches events)%list;
        ChordEnumerator.lastPlayed := ChordEnumerator.lastPlayed st |},
     events, []).
Proof.
  revert st. induction events as [|e events IH]; intros st.
  - simpl. rewrite app_nil_r. by destruct st.
  - cbn [map ChordEnumerator.run]. unfold ChordEnumerator.HandleMIDI.
    cbn [ChordEnumerator.noteOnPitches].
    destruct (Midi.kind e); rewrite IH; cbn;
      rewrite <- ?app_assoc; reflexivity.
Qed.

(** X9. Over a whole session of the chord logger, ticks and events in any
    order, the events sent on are exactly the events received, in the
    order received. *)
Theorem session_forwards_all_events
    (st : ChordEnumerator.State) (inputs : list ChordEnumerator.Input) :
  snd (fst (ChordEnumerator.run st inputs)) = ChordEnumerator.eventsOf inputs.
Proof.
  revert st. induction inputs as [|[e|t] inputs IH]; intros st.
  - reflexivity.
  - cbn [ChordEnumerator.run ChordEnumerator.eventsOf].
    destruct (ChordEnumerator.HandleMIDI st e) as [st1 sent] eqn:Eh.
    specialize (IH st1).
    destruct (ChordEnumerator.run st1 inputs) as [[st2 sent'] calls].
    cbn in *. unfold ChordEnumerator.HandleMIDI in Eh.
    injection Eh as _ <-. by rewrite IH.
  - cbn [ChordEnumerator.run ChordEnumerator.eventsOf].
    destruct (ChordEnumerator.ProcessMIDI st t) as [st1 calls].
    specialize (IH st1).
    destruct (ChordEnumerator.run st1 inputs) as [[st2 sent] calls'].
    exact IH.
Qed.

(** X10. A tick that reports the transport stopped, after a tick that
    did so too (or at the very start), changes nothing and flushes
    nothing. *)
Theorem stopped_tick_is_noop
    (st : ChordEnumerator.State) (t : Midi.TimingInfo) :
  Midi.playing t = false →
  ChordEnumerator.lastPlayed st = false →
  ChordEnumerator.ProcessMIDI st t = (st, []).
Proof.
  intros Hp Hl. unfold ChordEnumerator.ProcessMIDI.
  rewrite Hp, Hl. cbn. destruct st as [cur bp lp]. cbn in *. by subst.
Qed.

(** X10 on the initial state. *)
Lemma stopped_tick_is_noop_witness :
  let t := {| Midi.playing := false; Midi.blockStartBeat := 9;
              Midi.meterNumerator := 3; Midi.meterDenominator := 4 |} in
  ChordEnumerator.ProcessMIDI ChordEnumerator.initialState t
  = (ChordEnumerator.initialState, []).
Proof.
  intros t.
  apply (stopped_tick_is_noop ChordEnumerator.initialState t); reflexivity.
Defined.

(** X11. The first playing tick after a start or a reset anchors the
    tracker on the bar of the block start, wherever that is, and flushes
    nothing; the tick leaves the accumulated pitch list as it is. *)
Theorem first_tick_anchors
    (st : ChordEnumerator.State) (t : Midi.TimingInfo) :
  ChordEnumerator.currentBar st = None →
  Midi.playing t = true →
  ChordEnumerator.ProcessMIDI st t
  = ({| ChordEnumerator.currentBar := Some (ChordEnumerator.barIndexOf t);
        ChordEnumerator.barPitches := ChordEnumerator.barPitches st;
        ChordEnumerator.lastPlayed := true |}, []).
Proof.
  intros Hc Hp. unfold ChordEnumerator.ProcessMIDI.
  rewrite Hp, Hc. cbn. by rewrite Z.eqb_refl.
Qed.

(** X11 on a start in the middle of the song, at beat 33 in 4/4. *)
Lemma first_tick_anchors_witness :
  let st := {| ChordEnumerator.currentBar := None;
               ChordEnumerator.barPitches := [60];
               ChordEnumerator.lastPlayed := false |} in
  let t := {| Midi.playing := true; Midi.blockStartBeat := 33;
              Midi.meterNumerator := 4; Midi.meterDenominator := 4 |} in
  ChordEnumerator.ProcessMIDI st t
  = ({| ChordEnumerator.currentBar := Some (ChordEnumerator.barIndexOf t);
        ChordEnumerator.barPitches := [60];
        ChordEnumerator.lastPlayed := true |}, [])
  ∧ ChordEnumerator.barIndexOf t = 8.
Proof.
  intros st t. split; [|reflexivity].
  apply (first_tick_anchors st t); reflexivity.
Defined.

(** X12. While playing, the tracked bar never moves back: after a tick it
    is the larger of the tracked bar and the bar of the block start, and
    the tick makes one flush per bar gained. When the block start lies in
    the tracked bar or before it (a jump back in the timeline), nothing is
    flushed and the collected pitches are kept. *)
Theorem tracked_bar_monotone
    (st : ChordEnumerator.State) (t : Midi.TimingInfo) (c : Z) :
  ChordEnumerator.currentBar st = Some c →
  Midi.playing t = true →
  ∃ st' calls,
    ChordEnumerator.ProcessMIDI st t = (st', calls)
    ∧ ChordEnumerator.currentBar st'
      = Some (Z.max c (ChordEnumerator.barIndexOf t))
    ∧ length calls = Z.to_nat (ChordEnumerator.barIndexOf t - c)
    ∧ ChordEnumerator.lastPlayed st' = true
    ∧ (ChordEnumerator.barIndexOf t ≤ c →
       ChordEnumerator.barPitches st' = ChordEnumerator.barPitches st).
Proof.
  intros Hc Hp. unfold ChordEnumerator.ProcessMIDI.
  rewrite Hp, Hc. generalize (ChordEnumerator.barIndexOf t). intros b. cbn.
  destruct (Z.eqb_spec b c) as [->|Hne]; cbn.
  - eexists _, _. split; [reflexivity|]. cbn.
    rewrite Z.max_id, Z.sub_diag. by repeat split.
  - destruct (Z_lt_le_dec c b) as [Hlt|Hle].
    + destruct (flushLoop_calls (Z.to_nat (b - c)) c
                  (ChordEnumerator.barPitches st))
        as (calls & Hloop & Hnum & _).
      rewrite Z2Nat.id in Hloop, Hnum by lia.
      replace (c + (b - c)) with b in Hloop by lia.
      rewrite Hloop. eexists _, _. split; [reflexivity|]. cbn.
      rewrite Z.max_r by lia. repeat split; try lia.
      rewrite <- (length_map ChordEnumerator.barNumber), Hnum, length_seqZ.
      lia.
    + rewrite flushLoop_backward by done.
      eexists _, _. split; [reflexivity|]. cbn.
      rewrite Z.max_l by lia. repeat split.
      rewrite Z2Nat.nonpos; [done|lia].
Qed.

(** X12 on a jump back from bar 6 to beat 2. *)
Lemma tracked_bar_monotone_witness :
  let st := {| ChordEnumerator.currentBar := Some 6;
               ChordEnumerator.barPitches := [60; 67];
               ChordEnumerator.lastPlayed := true |} in
  let t := {| Midi.playing := true; Midi.blockStartBeat := 2;
              Midi.meterNumerator := 4; Midi.meterDenominator := 4 |} in
  ∃ st' calls,
    ChordEnumerator.ProcessMIDI st t = (st', calls)
    ∧ ChordEnumerator.currentBar st'
      = Some (Z.max 6 (ChordEnumerator.barIndexOf t))
    ∧ length calls = Z.to_nat (ChordEnumerator.barIndexOf t - 6)
    ∧ ChordEnumerator.lastPlayed st' = true
    ∧ (ChordEnumerator.barIndexOf t ≤ 6 →
       ChordEnumerator.barPitches st' = ChordEnumerator.barPitches st).
Proof.
  intros st t. apply (tracked_bar_monotone st t 6); reflexivity.
Defined.

(** ** Further properties of the tail generator *)

Section TailMore.

Import Tremolo.
Local Open Scope Q_scope.

Lemma ltb_false (x y : Q) : JS.ltb x y = false ↔ y <= x.
Proof.
  unfold JS.ltb. rewrite negb_false_iff. apply Qle_bool_iff.
Qed.

Lemma clamp_range (v lo hi : Q) : lo <= hi → lo <= clamp v lo hi <= hi.
Proof.
  intros Hle. unfold clamp.
  destruct (JS.ltb v lo) eqn:E1; [split; [apply Qle_refl|done]|].
  destruct (JS.ltb hi v) eqn:E2; [split; [done|apply Qle_refl]|].
  apply ltb_false in E1, E2. done.
Qed.

Lemma clamp_id (v lo hi : Q) : lo <= v <= hi → clamp v lo hi = v.
Proof.
  intros [H1 H2]. unfold clamp.
  apply ltb_false in H1, H2. by rewrite H1, H2.
Qed.

(** The menu index that is read: always inside the table. *)
Lemma menu_index_range (ps : Params) (idx : ParamIndex) :
  let selection := JS.round (param ps idx) in
  let safeIdx := clamp (inject_Z selection) 0
                   (inject_Z (Z.of_nat (length SYNC_DURATIONS) - 1)) in
  (0 ≤ Qfloor safeIdx ≤ 17)%Z.
Proof.
  intros selection safeIdx.
  assert (H : 0 <= safeIdx <= inject_Z 17) by (by apply clamp_range).
  destruct H as [H1 H2]. split.
  - change 0%Z with (Qfloor 0). by apply Qfloor_resp_le.
  - rewrite <- (Qfloor_Z 17). by apply Qfloor_resp_le.
Qed.

Lemma envDuration_in_table (ps : Params) (idx : ParamIndex) :
  In (envDurationFromMenu ps idx) (map snd SYNC_DURATIONS).
Proof.
  unfold envDurationFromMenu. cbv zeta.
  pose proof (menu_index_range ps idx) as Hr. cbv zeta in Hr.
  apply in_map, nth_In.
  change (length SYNC_DURATIONS) with 18%nat in *. lia.
Qed.

Lemma envDuration_bounds (ps : Params) (idx : ParamIndex) :
  (1 # 16) <= envDurationFromMenu ps idx <= 6.
Proof.
  pose proof (envDuration_in_table ps idx) as Hin.
  assert (Hall : Forall (fun v => (1 # 16) <= v <= 6) (map snd SYNC_DURATIONS)).
  { repeat constructor; discriminate. }
  rewrite Forall_forall in Hall. apply Hall. by apply list_elem_of_In.
Qed.

Lemma envDuration_pos (ps : Params) (idx : ParamIndex) :
  0 < envDurationFromMenu ps idx.
Proof.
  destruct (envDuration_bounds ps idx) as [H _].
  eapply Qlt_le_trans; [|exact H]. reflexivity.
Qed.

Lemma tailVelocity_range (ps : Params) (pl : Plan) (baseVel : Z) (i : nat) :
  (1 ≤ tailVelocity ps pl baseVel i ≤ 127)%Z.
Proof.
  unfold tailVelocity. cbv zeta.
  match goal with |- context [JS.round ?x] => generalize (JS.round x) end.
  intros v.
  destruct (Z.ltb_spec v 1);
    [destruct (Z.ltb_spec 127 1)|destruct (Z.ltb_spec 127 v)]; lia.
Qed.

(** Repeat 0 sits at the start of the envelope, where the amplitude is 0
    because no entry of the attack menu is 0. *)
Lemma tailVelocity_first (ps : Params) (pl : Plan) (baseVel : Z) :
  tailVelocity ps pl baseVel 0 = 1%Z.
Proof.
  unfold tailVelocity. cbv zeta.
  assert (Henv : envelopeAtTime (inject_Z (Z.of_nat 0) * spacing pl)
                   (envDurationFromMenu ps ATTACK) (envDurationFromMenu ps HOLD)
                   (envDurationFromMenu ps ENV_DECAY) (param ps SUSTAIN)
                   (envDurationFromMenu ps RELEASE) (totalSpan pl) = 0).
  { unfold envelopeAtTime. cbv zeta.
    assert (H0 : JS.leb (inject_Z (Z.of_nat 0) * spacing pl) 0 = true).
    { apply leb_le. change (inject_Z (Z.of_nat 0)) with 0.
      rewrite Qmult_0_l. apply Qle_refl. }
    rewrite H0.
    pose proof (envDuration_pos ps ATTACK) as Ha.
    apply ltb_lt in Ha. by rewrite Ha. }
  rewrite Henv.
  match goal with |- context [JS.round ?x] =>
    assert (Hr : JS.round x = 0%Z) end.
  { unfold JS.round.
    match goal with |- Qfloor ?y = _ =>
      assert (Hy : y == 1 # 2) by (rewrite Qmult_0_r; reflexivity) end.
    by rewrite (Qfloor_comp _ _ Hy). }
  rewrite Hr. reflexivity.
Qed.

End TailMore.

(** X14. [clamp] with bounds in order returns a value between the bounds,
    and returns its argument unchanged when that already lies between
    them. *)
Theorem clamp_between (v lo hi : Q) :
  (lo <= hi)%Q →
  (lo <= Tremolo.clamp v lo hi <= hi)%Q
  ∧ ((lo <= v <= hi)%Q → Tremolo.clamp v lo hi = v).
Proof.
  intros Hle. split; [by apply clamp_range|apply clamp_id].
Qed.

(** X14 on a pitch pushed above the MIDI range and on one inside it. *)
Lemma clamp_between_witness :
  (0 <= Tremolo.clamp 140 0 127 <= 127)%Q
  ∧ Tremolo.clamp (127 # 2) 0 127 = (127 # 2)%Q.
Proof.
  split.
  - apply (clamp_between 140 0 127). discriminate.
  - apply (clamp_between (127 # 2) 0 127); [discriminate|].
    split; discriminate.
Defined.

(** X15. Whatever value a menu control holds (fractional, negative or
    beyond the last entry), [envDurationFromMenu] returns one of the
    eighteen durations of the table, so a duration between 1/16 and 6
    beats and never zero. *)
Theorem envDuration_from_table (ps : Tremolo.Params) (idx : Tremolo.ParamIndex) :
  In (Tremolo.envDurationFromMenu ps idx) (map snd Tremolo.SYNC_DURATIONS)
  ∧ (1 # 16 <= Tremolo.envDurationFromMenu ps idx <= 6)%Q.
Proof.
  split; [apply envDuration_in_table|apply envDuration_bounds].
Qed.

(** X16. The first repeat of every tail has velocity 1: its envelope time
    is 0 and every attack duration of the menu is positive, so the
    amplitude is 0 and the rounded velocity is raised to the floor 1,
    whatever the source velocity and the other controls. The output of
    [createTailRepeats], when the spacing is positive, begins with the
    events of that repeat. *)
Theorem first_repeat_velocity
    (ps : Tremolo.Params) (src : Midi.Event) (lengthBeats releaseBeat : Q) :
  let first := Tremolo.tailRepeat ps (Tremolo.planOf ps) src releaseBeat 0 in
  Forall (fun s => Tremolo.velocity s = 1) first
  ∧ ∃ rest,
      Tremolo.createTailRepeats ps src lengthBeats releaseBeat
      = ((if JS.leb (Tremolo.spacingOf ps) 0 then [] else first) ++ rest)%list.
Proof.
  intros first. split.
  - subst first. unfold Tremolo.tailRepeat. cbv zeta.
    destruct (_ || _); [constructor|].
    repeat constructor; cbn; apply tailVelocity_first.
  - unfold Tremolo.createTailRepeats. rewrite spacing_planOf.
    destruct (JS.leb (Tremolo.spacingOf ps) 0); [by exists []|].
    pose proof (repeats_ge_1 ps) as Hr.
    destruct (Z.to_nat (Tremolo.repeats (Tremolo.planOf ps))) as [|n] eqn:En;
      [lia|].
    cbn [Tremolo.tailLoop]. by eexists.
Qed.

(** X17. With a sustain level between 0 and 1 the envelope value lies
    between 0 and 1 at every time, for all stage durations and spans,
    negative ones included. *)
Theorem envelope_in_unit_interval (t a h d s r total : Q) :
  (0 <= s <= 1)%Q →
  (0 <= Tremolo.envelopeAtTime t a h d s r total <= 1)%Q.
Proof.
  intros [Hs0 Hs1]. unfold Tremolo.envelopeAtTime. cbv zeta.
  destruct (JS.leb t 0) eqn:Et.
  { destruct (JS.ltb 0 a); split; discriminate. }
  apply leb_false in Et.
  destruct (JS.ltb t a && JS.ltb 0 a) eqn:Ea.
  { apply andb_true_iff in Ea as [Hta Ha]. apply ltb_lt in Hta, Ha. split.
    - apply Qle_shift_div_l; [done|]. rewrite Qmult_0_l. by apply Qlt_le_weak.
    - apply Qle_shift_div_r; [done|]. rewrite Qmult_1_l. by apply Qlt_le_weak. }
  destruct (JS.ltb t (a + h)) eqn:Eh; [split; discriminate|].
  apply ltb_false in Eh.
  destruct (JS.ltb t (a + h + d) && JS.ltb 0 d) eqn:Ed.
  { apply andb_true_iff in Ed as [Htd Hd]. apply ltb_lt in Htd, Hd.
    set (k := ((t - (a + h)) / d)%Q).
    assert (Hk : (0 <= k <= 1)%Q).
    { split.
      - apply Qle_shift_div_l; [done|]. lra.
      - apply Qle_shift_div_r; [done|]. lra. }
    destruct Hk. split; nra. }
  destruct (JS.ltb t (JS.max (a + h + d) (total - r))) eqn:Er; [done|].
  apply ltb_false in Er.
  destruct (JS.leb r 0) eqn:Er0; [split; discriminate|].
  apply leb_false in Er0.
  set (rel := ((t - JS.max (a + h + d) (total - r)) / r)%Q).
  assert (Hrel : (0 <= rel)%Q).
  { apply Qle_shift_div_l; [done|]. lra. }
  assert (Hm : (0 <= JS.min 1 rel <= 1)%Q).
  { unfold JS.min. destruct (Qle_bool 1 rel) eqn:E1; [split; discriminate|].
    split; [done|]. apply Qlt_le_weak, Qnot_le_lt. intros H.
    apply Qle_bool_iff in H. congruence. }
  destruct Hm. split; nra.
Qed.

(** X17 in the decay stage of the default envelope. *)
Lemma envelope_in_unit_interval_witness :
  (0 <= Tremolo.envelopeAtTime (1 # 2) (1 # 16) (1 # 16) 1 (8 # 10) 1 2 <= 1)%Q.
Proof.
  apply envelope_in_unit_interval. split; discriminate.
Defined.

Section TailBounds.

Import Tremolo.
Local Open Scope Q_scope.

Lemma beat_of_round (rel delay sp : Q) (i : nat) :
  0 <= sp → rel + delay <= rel + delay + sp * inject_Z (Z.of_nat i).
Proof.
  intros Hsp.
  assert (0 <= inject_Z (Z.of_nat i)).
  { change 0 with (inject_Z 0). rewrite <- Zle_Qle. lia. }
  assert (0 <= sp * inject_Z (Z.of_nat i)) by (by apply Qmult_le_0_compat).
  lra.
Qed.

Lemma beat_of_round_lt (rel delay sp : Q) (i j : nat) :
  0 < sp → (i < j)%nat →
  rel + delay + sp * inject_Z (Z.of_nat i)
  < rel + delay + sp * inject_Z (Z.of_nat j).
Proof.
  intros Hsp Hij.
  assert (inject_Z (Z.of_nat i) < inject_Z (Z.of_nat j))
    by (rewrite <- Zlt_Qlt; lia).
  assert (sp * inject_Z (Z.of_nat i) < sp * inject_Z (Z.of_nat j))
    by (by apply Qmult_lt_l).
  lra.
Qed.

(** What holds of every event of one round. *)
Lemma tailRepeat_bounds ps pl src rel i s :
  0 <= spacing pl → 0 <= gateBeats pl →
  In s (tailRepeat ps pl src rel i) →
  (1 ≤ velocity s ≤ 127)%Z ∧ 0 <= pitch s <= 127
  ∧ channel s = Midi.channel src
  ∧ rel + param ps DELAY <= atBeat s.
Proof.
  intros Hsp Hg. unfold tailRepeat. cbv zeta.
  destruct (_ || _); [done|].
  pose proof (tailVelocity_range ps pl (Midi.velocity src) i) as Hv.
  pose proof (beat_of_round rel (param ps DELAY) (spacing pl) i Hsp) as Hb.
  intros [<-|[<-|[]]]; cbn; repeat split; try lia;
    try (apply clamp_range; discriminate); try done.
  lra.
Qed.

Lemma tailLoop_bounds ps pl src rel n i s :
  0 <= spacing pl → 0 <= gateBeats pl →
  In s (tailLoop ps pl src rel n i) →
  (1 ≤ velocity s ≤ 127)%Z ∧ 0 <= pitch s <= 127
  ∧ channel s = Midi.channel src
  ∧ rel + param ps DELAY <= atBeat s.
Proof.
  intros Hsp Hg. revert i. induction n as [|n IH]; intros i; [done|].
  cbn [tailLoop]. intros Hin. apply in_app_or in Hin as [Hin|Hin].
  - by apply (tailRepeat_bounds ps pl src rel i).
  - by apply (IH (S i)).
Qed.

Lemma onBeats_app (l1 l2 : list Scheduled) :
  onBeats (l1 ++ l2) = (onBeats l1 ++ onBeats l2)%list.
Proof. unfold onBeats. by rewrite List.filter_app, map_app. Qed.

Lemma onBeats_round ps pl src rel i :
  onBeats (tailRepeat ps pl src rel i) = []
  ∨ onBeats (tailRepeat ps pl src rel i)
    = [rel + param ps DELAY + spacing pl * inject_Z (Z.of_nat i)].
Proof.
  unfold tailRepeat. cbv zeta. destruct (_ || _); [by left|by right].
Qed.

(** The note-ons of rounds [i], [i+1], ... are sent in ascending beat
    order, none before the beat of round [i]. *)
Lemma onBeats_loop_sorted ps pl src rel n i :
  0 < spacing pl →
  StronglySorted Qlt (onBeats (tailLoop ps pl src rel n i))
  ∧ Forall (fun b => rel + param ps DELAY + spacing pl * inject_Z (Z.of_nat i)
                     <= b)
           (onBeats (tailLoop ps pl src rel n i)).
Proof.
  intros Hsp. revert i. induction n as [|n IH]; intros i.
  - split; constructor.
  - destruct (IH (S i)) as [Hs Hall]. cbn [tailLoop]. rewrite onBeats_app.
    assert (Hlater :
      Forall (fun b => rel + param ps DELAY + spacing pl * inject_Z (Z.of_nat i)
                       < b)
             (onBeats (tailLoop ps pl src rel n (S i)))).
    { eapply Forall_impl; [exact Hall|]. intros b Hb. cbv beta in Hb.
      eapply Qlt_le_trans; [|exact Hb].
      apply beat_of_round_lt; [done|lia]. }
    destruct (onBeats_round ps pl src rel i) as [->| ->]; cbn [app].
    + split; [done|]. eapply Forall_impl; [exact Hlater|].
      intros b Hb. by apply Qlt_le_weak.
    + split; [by constructor|]. constructor; [apply Qle_refl|].
      eapply Forall_impl; [exact Hlater|]. intros b Hb. by apply Qlt_le_weak.
Qed.

End TailBounds.

(** X18. Every event that [createTailRepeats] schedules has a velocity
    between 1 and 127, a pitch between 0 and 127, the channel of the
    source note, and a beat not before releaseBeat + delay. *)
Theorem scheduled_events_bounded
    (ps : Tremolo.Params) (src : Midi.Event) (lengthBeats releaseBeat : Q) :
  Forall (fun s =>
            1 ≤ Tremolo.velocity s ≤ 127
            ∧ (0 <= Tremolo.pitch s <= 127)%Q
            ∧ Tremolo.channel s = Midi.channel src
            ∧ (releaseBeat + Tremolo.param ps Tremolo.DELAY
               <= Tremolo.atBeat s)%Q)
         (Tremolo.createTailRepeats ps src lengthBeats releaseBeat).
Proof.
  apply Forall_forall. intros s Hs. apply list_elem_of_In in Hs.
  unfold Tremolo.createTailRepeats in Hs.
  destruct (JS.leb (Tremolo.spacing (Tremolo.planOf ps)) 0) eqn:Esp; [done|].
  apply leb_false in Esp.
  eapply (tailLoop_bounds ps (Tremolo.planOf ps) src releaseBeat);
    [by apply Qlt_le_weak| |exact Hs].
  apply Qlt_le_weak, gateBeats_pos. by rewrite <- spacing_planOf.
Qed.

(** X19. The note-ons of a tail are sent in beat order: no note-on is
    scheduled before one sent earlier in the same tail. *)
Theorem tail_note_ons_in_beat_order
    (ps : Tremolo.Params) (src : Midi.Event) (lengthBeats releaseBeat : Q) :
  StronglySorted Qle
    (Tremolo.onBeats (Tremolo.createTailRepeats ps src lengthBeats releaseBeat)).
Proof.
  unfold Tremolo.createTailRepeats.
  destruct (JS.leb (Tremolo.spacing (Tremolo.planOf ps)) 0) eqn:Esp;
    [constructor|].
  apply leb_false in Esp.
  destruct (onBeats_loop_sorted ps (Tremolo.planOf ps) src releaseBeat
              (Z.to_nat (Tremolo.repeats (Tremolo.planOf ps))) 0 Esp)
    as [Hs _].
  induction Hs as [|b l _ IH Hall]; constructor; [exact IH|].
  eapply Forall_impl; [exact Hall|]. intros c Hc. by apply Qlt_le_weak.
Qed.

Section TailBand.

Import Tremolo.
Local Open Scope Q_scope.

Lemma leb_comp (x x' y y' : Q) : x == x' → y == y' → JS.leb x y = JS.leb x' y'.
Proof.
  intros Hx Hy.
  destruct (JS.leb x y) eqn:E1, (JS.leb x' y') eqn:E2; try done.
  - apply leb_le in E1. rewrite Hx, Hy in E1. apply leb_le in E1. congruence.
  - apply leb_le in E2. rewrite <- Hx, <- Hy in E2. apply leb_le in E2.
    congruence.
Qed.

Lemma ltb_comp (x x' y y' : Q) : x == x' → y == y' → JS.ltb x y = JS.ltb x' y'.
Proof.
  intros Hx Hy. unfold JS.ltb. f_equal. by apply (leb_comp y y' x x').
Qed.

(** The pass-band tests depend on the bound as a rational only. *)
Lemma hzLt_comp (hz : Hz) (b b' : Q) : b == b' → hzLt hz b = hzLt hz b'.
Proof.
  intros Hb. unfold hzLt. cbv zeta.
  rewrite (leb_comp b b' 0 0 Hb (Qeq_refl 0)).
  destruct (JS.leb b' 0); [done|].
  apply ltb_comp; [reflexivity|]. by rewrite Hb.
Qed.

Lemma hzGt_comp (hz : Hz) (b b' : Q) : b == b' → hzGt hz b = hzGt hz b'.
Proof.
  intros Hb. unfold hzGt. cbv zeta.
  rewrite (leb_comp b b' 0 0 Hb (Qeq_refl 0)).
  destruct (JS.leb b' 0); [done|].
  apply ltb_comp; [|reflexivity]. by rewrite Hb.
Qed.

(** The loop reads the band controls only through the plan, and the plan's
    band edges only as rationals. *)
Lemma tailLoop_band_ext ps ps' pl pl' src rel n i :
  (∀ idx, idx ≠ HIGHPASS_HZ → idx ≠ LOWPASS_HZ → ps' idx = ps idx) →
  spacing pl' = spacing pl → gateBeats pl' = gateBeats pl →
  totalSpan pl' = totalSpan pl →
  hpHz pl' == hpHz pl → lpHz pl' == lpHz pl →
  tailLoop ps' pl' src rel n i = tailLoop ps pl src rel n i.
Proof.
  intros Hps Hsp Hg Ht Hhp Hlp. revert i.
  induction n as [|n IH]; intros i; [done|].
  cbn [tailLoop]. rewrite IH. f_equal.
  unfold tailRepeat, tailVelocity, envDurationFromMenu, param. cbv zeta.
  rewrite !(Hps DELAY), !(Hps DECAY), !(Hps ATTACK), !(Hps HOLD),
    !(Hps ENV_DECAY), !(Hps SUSTAIN), !(Hps RELEASE), !(Hps PITCH_DECAY),
    !(Hps PITCH_DECAY_MULTIPLIER) by discriminate.
  rewrite Hsp, Hg, Ht.
  by rewrite (hzLt_comp _ _ _ Hhp), (hzGt_comp _ _ _ Hlp).
Qed.

Lemma band_planOf (ps : Params) :
  hpHz (planOf ps)
  = (if JS.ltb (param ps LOWPASS_HZ) (param ps HIGHPASS_HZ)
     then param ps LOWPASS_HZ else param ps HIGHPASS_HZ)
  ∧ lpHz (planOf ps)
    = (if JS.ltb (param ps LOWPASS_HZ) (param ps HIGHPASS_HZ)
       then param ps HIGHPASS_HZ else param ps LOWPASS_HZ).
Proof. unfold planOf. by destruct (JS.ltb _ _). Qed.

Lemma band_of_swap (ps : Params) :
  hpHz (planOf (swapBand ps)) == hpHz (planOf ps)
  ∧ lpHz (planOf (swapBand ps)) == lpHz (planOf ps).
Proof.
  assert (Hh : param (swapBand ps) HIGHPASS_HZ = param ps LOWPASS_HZ)
    by reflexivity.
  assert (Hl : param (swapBand ps) LOWPASS_HZ = param ps HIGHPASS_HZ)
    by reflexivity.
  destruct (band_planOf ps) as [-> ->].
  destruct (band_planOf (swapBand ps)) as [-> ->].
  rewrite Hh, Hl.
  generalize (param ps HIGHPASS_HZ) (param ps LOWPASS_HZ). intros hp lp.
  destruct (JS.ltb lp hp) eqn:E1; destruct (JS.ltb hp lp) eqn:E2;
    try (split; reflexivity).
  - apply ltb_lt in E1, E2. exfalso. apply (Qlt_irrefl lp). lra.
  - apply ltb_false in E1, E2. split; by apply Qle_antisym.
Qed.

End TailBand.

(** X20. Exchanging the high-pass and low-pass controls does not change
    the tail: the band edges are put in order before they are used. *)
Theorem band_controls_swap
    (ps : Tremolo.Params) (src : Midi.Event) (lengthBeats releaseBeat : Q) :
  Tremolo.createTailRepeats (Tremolo.swapBand ps) src lengthBeats releaseBeat
  = Tremolo.createTailRepeats ps src lengthBeats releaseBeat.
Proof.
  unfold Tremolo.createTailRepeats.
  rewrite !spacing_planOf, !repeats_planOf.
  change (Tremolo.spacingOf (Tremolo.swapBand ps)) with (Tremolo.spacingOf ps).
  change (Tremolo.quantityOf (Tremolo.swapBand ps))
    with (Tremolo.quantityOf ps).
  change (Tremolo.voicesOf (Tremolo.swapBand ps)) with (Tremolo.voicesOf ps).
  destruct (JS.leb (Tremolo.spacingOf ps) 0); [done|].
  destruct (band_of_swap ps) as [Hhp Hlp].
  apply tailLoop_band_ext; try done.
  - intros idx H1 H2. unfold Tremolo.swapBand, Tremolo.setParam.
    destruct (decide (idx = Tremolo.LOWPASS_HZ)); [done|].
    by destruct (decide (idx = Tremolo.HIGHPASS_HZ)).
  - by rewrite !spacing_planOf.
  - by rewrite !gateBeats_planOf.
  - by rewrite !totalSpan_planOf.
Qed.

Section TailAllOrNothing.

Import Tremolo.
Local Open Scope Q_scope.

(** With a pitch decay of 0 every round computes the same pitch. *)
Lemma transpose_zero (pd m : Q) (p : Z) (i : nat) :
  pd == 0 →
  inject_Z p + pd * m * inject_Z (Z.of_nat i)
  = inject_Z p + pd * m * inject_Z (Z.of_nat 0).
Proof.
  destruct pd as [n d]. intros H.
  assert (n = 0%Z) as -> by (unfold Qeq in H; cbn in H; lia).
  unfold Qplus, Qmult, inject_Z. cbn [Qnum Qden].
  by rewrite !Z.mul_0_l.
Qed.

(** The pass-band test of round 0. *)
Lemma tailRepeat_same_band ps pl src rel i :
  param ps PITCH_DECAY == 0 →
  (tailRepeat ps pl src rel 0 = [] → tailRepeat ps pl src rel i = [])
  ∧ (tailRepeat ps pl src rel 0 ≠ [] →
     length (List.filter isNoteOn (tailRepeat ps pl src rel i)) = 1%nat).
Proof.
  intros Hpd. unfold tailRepeat. cbv zeta.
  rewrite (transpose_zero _ (param ps PITCH_DECAY_MULTIPLIER)
             (Midi.pitch src) i Hpd).
  destruct (_ || _); split; done.
Qed.

Lemma tailLoop_all_or_nothing ps pl src rel n i :
  param ps PITCH_DECAY == 0 →
  (tailRepeat ps pl src rel 0 = [] → tailLoop ps pl src rel n i = [])
  ∧ (tailRepeat ps pl src rel 0 ≠ [] →
     length (List.filter isNoteOn (tailLoop ps pl src rel n i)) = n).
Proof.
  intros Hpd. revert i. induction n as [|n IH]; intros i; [done|].
  destruct (IH (S i)) as [IH1 IH2].
  destruct (tailRepeat_same_band ps pl src rel i Hpd) as [H1 H2].
  cbn [tailLoop]. split; intros H0.
  - by rewrite H1, IH1.
  - rewrite List.filter_app, length_app, H2, IH2; done.
Qed.

End TailAllOrNothing.

(** X21. With the pitch decay control at 0 a tail is all or nothing:
    every repeat has the pitch of the source, so either no event is
    scheduled, or exactly min(round(quantity), round(voices)) note-ons,
    both floored at 1, are. *)
Theorem tail_all_or_nothing
    (ps : Tremolo.Params) (src : Midi.Event) (lengthBeats releaseBeat : Q) :
  (Tremolo.param ps Tremolo.PITCH_DECAY == 0)%Q →
  let out := Tremolo.createTailRepeats ps src lengthBeats releaseBeat in
  out = []
  ∨ Z.of_nat (length (List.filter Tremolo.isNoteOn out))
    = Z.min (Z.max 1 (JS.round (Tremolo.param ps Tremolo.QUANTITY)))
            (Z.max 1 (JS.round (Tremolo.param ps Tremolo.VOICES))).
Proof.
  intros Hpd out. subst out. unfold Tremolo.createTailRepeats.
  destruct (JS.leb _ 0); [by left|].
  destruct (tailLoop_all_or_nothing ps (Tremolo.planOf ps) src releaseBeat
              (Z.to_nat (Tremolo.repeats (Tremolo.planOf ps))) 0 Hpd)
    as [H1 H2].
  destruct (Tremolo.tailRepeat ps (Tremolo.planOf ps) src releaseBeat 0)
    as [|s0 r0] eqn:E0.
  - left. by apply H1.
  - right. rewrite H2 by done.
    pose proof (repeats_ge_1 ps) as Hr. rewrite repeats_planOf in *.
    unfold Tremolo.quantityOf, Tremolo.voicesOf in *. lia.
Qed.

(** X21 with the default controls: both repeats are sent. *)
Lemma tail_all_or_nothing_witness :
  let src := {| Midi.kind := Midi.NoteOn; Midi.pitch := 69;
                Midi.velocity := 100; Midi.channel := 1;
                Midi.beatPos := Some 0%Q |} in
  let out := Tremolo.createTailRepeats Tremolo.defaultParams src 1 4 in
  length out = 4%nat
  ∧ (out = []
     ∨ Z.of_nat (length (List.filter Tremolo.isNoteOn out))
       = Z.min (Z.max 1 (JS.round (Tremolo.param Tremolo.defaultParams
                                     Tremolo.QUANTITY)))
               (Z.max 1 (JS.round (Tremolo.param Tremolo.defaultParams
                                     Tremolo.VOICES)))).
Proof.
  intros src out. split; [reflexivity|].
  apply (tail_all_or_nothing Tremolo.defaultParams src 1 4). reflexivity.
Defined.

(** ** The note lifecycle of the tail generator *)

Section NoteKeys.

Import Tremolo.

Lemma pretty_N_go_noColon (x : N) (s : string) :
  noColon s → noColon (pretty_N_go x s).
Proof.
  revert s. induction (N.lt_wf_0 x) as [x _ IH]; intros s Hs.
  destruct (decide (x = 0)%N) as [->|Hx]; [by rewrite pretty_N_go_0|].
  rewrite pretty_N_go_step by lia.
  apply IH; [apply N.div_lt; lia|].
  split; [|done]. unfold pretty_N_char. by repeat case_match.
Qed.

Lemma pretty_Z_noColon (z : Z) : noColon (pretty z).
Proof.
  assert (Hp : ∀ p : positive, noColon (pretty p)).
  { intros p. unfold pretty, pretty_positive, pretty, pretty_N.
    case_decide; [by split|]. by apply pretty_N_go_noColon. }
  destruct z as [|p|p]; unfold pretty, pretty_Z.
  - by split.
  - apply Hp.
  - split; [done|apply Hp].
Qed.

Lemma append_cons (c : ascii) (s t : string) :
  (String c s ++ t)%string = String c (s ++ t)%string.
Proof. reflexivity. Qed.

Lemma append_empty_l (t : string) : ("" ++ t)%string = t.
Proof. reflexivity. Qed.

(** The text before the first colon determines the two halves of a key. *)
Lemma split_at_colon (s1 s2 t1 t2 : string) :
  noColon s1 → noColon s2 →
  (s1 ++ ":" ++ t1 = s2 ++ ":" ++ t2)%string → s1 = s2 ∧ t1 = t2.
Proof.
  revert s2. induction s1 as [|c s1 IH]; intros [|c' s2] H1 H2 Heq;
    rewrite ?append_cons, ?append_empty_l in Heq.
  - by injection Heq as ->.
  - injection Heq as Hc _. destruct H2 as [H2 _]. by symmetry in Hc.
  - injection Heq as Hc _. destruct H1 as [H1 _]. done.
  - injection Heq as -> Heq. destruct H1 as [_ H1], H2 as [_ H2].
    destruct (IH s2 H1 H2 Heq) as [-> ->]. done.
Qed.

Lemma noteKey_eq_iff (e1 e2 : Midi.Event) :
  noteKey e1 = noteKey e2
  ↔ Midi.pitch e1 = Midi.pitch e2 ∧ Midi.channel e1 = Midi.channel e2.
Proof.
  unfold noteKey. split.
  - intros H. apply split_at_colon in H as [Hp Hc];
      try apply pretty_Z_noColon.
    split; by apply (inj pretty).
  - by intros [-> ->].
Qed.

Lemma sentNow_scheduled (tail : list Scheduled) (rest : list Output) :
  sentNow (map SendAtBeat tail ++ rest) = sentNow rest.
Proof. induction tail as [|s tail IH]; [done|exact IH]. Qed.

Lemma handle_sentNow (ps : Params) (st : State) (e : Midi.Event) :
  sentNow (snd (HandleMIDI ps st e)) = [e].
Proof.
  unfold HandleMIDI. destruct (Midi.kind e); try done.
  destruct (activeNotes st !! noteKey e); [|done].
  cbn [snd]. by rewrite sentNow_scheduled.
Qed.

Lemma sentNow_app (o1 o2 : list Output) :
  sentNow (o1 ++ o2) = (sentNow o1 ++ sentNow o2)%list.
Proof.
  induction o1 as [|[e|s] o1 IH]; [done| |exact IH].
  cbn. by rewrite IH.
Qed.

End NoteKeys.

(** X22. Note keys separate notes by pitch and channel: two events have
    the same key exactly when they have the same pitch and the same
    channel. *)
Theorem noteKey_separates (e1 e2 : Midi.Event) :
  Tremolo.noteKey e1 = Tremolo.noteKey e2
  ↔ Midi.pitch e1 = Midi.pitch e2 ∧ Midi.channel e1 = Midi.channel e2.
Proof. apply noteKey_eq_iff. Qed.

(** X23. A note-on is registered under its key with the event itself and
    its start beat, which is the event's beat position or, when the host
    left that undefined, the block start of the last tick; a note already
    registered under that key is replaced; the notes under every other
    pitch or channel, and the last known beat, are untouched. *)
Theorem note_on_registers
    (ps : Tremolo.Params) (st : Tremolo.State) (e : Midi.Event) :
  Midi.kind e = Midi.NoteOn →
  let st' := fst (Tremolo.HandleMIDI ps st e) in
  Tremolo.activeNotes st' !! Tremolo.noteKey e
  = Some {| Tremolo.on := e;
            Tremolo.startBeat := default (Tremolo.lastBeatPos st)
                                         (Midi.beatPos e) |}
  ∧ Tremolo.lastBeatPos st' = Tremolo.lastBeatPos st
  ∧ ∀ e', (Midi.pitch e' ≠ Midi.pitch e ∨ Midi.channel e' ≠ Midi.channel e) →
          Tremolo.activeNotes st' !! Tremolo.noteKey e'
          = Tremolo.activeNotes st !! Tremolo.noteKey e'.
Proof.
  intros Hk st'. subst st'. unfold Tremolo.HandleMIDI. rewrite Hk.
  cbn [fst Tremolo.activeNotes Tremolo.lastBeatPos].
  split; [|split; [done|]].
  - rewrite lookup_insert_eq. by destruct (Midi.beatPos e).
  - intros e' Hne. apply lookup_insert_ne. intros Heq.
    apply noteKey_eq_iff in Heq as [Hp Hc]. destruct Hne; congruence.
Qed.

(** X23 on a note-on without beat position, after a tick at beat 6. *)
Lemma note_on_registers_witness :
  let e := {| Midi.kind := Midi.NoteOn; Midi.pitch := 60;
              Midi.velocity := 90; Midi.channel := 2;
              Midi.beatPos := None |} in
  let st := {| Tremolo.activeNotes := ∅; Tremolo.lastBeatPos := 6 |} in
  let st' := fst (Tremolo.HandleMIDI Tremolo.defaultParams st e) in
  Tremolo.activeNotes st' !! Tremolo.noteKey e
  = Some {| Tremolo.on := e;
            Tremolo.startBeat := default (Tremolo.lastBeatPos st)
                                         (Midi.beatPos e) |}
  ∧ Tremolo.lastBeatPos st' = Tremolo.lastBeatPos st
  ∧ ∀ e', (Midi.pitch e' ≠ Midi.pitch e ∨ Midi.channel e' ≠ Midi.channel e) →
          Tremolo.activeNotes st' !! Tremolo.noteKey e'
          = Tremolo.activeNotes st !! Tremolo.noteKey e'.
Proof.
  intros e st.
  apply (note_on_registers Tremolo.defaultParams st e). reflexivity.
Defined.

(** X24. A note-off leaves no note registered under its key, touches no
    other pitch or channel, and keeps the last known beat. When no note is
    registered under its key it changes nothing and schedules nothing: the
    only output is the event itself. *)
Theorem note_off_consumes
    (ps : Tremolo.Params) (st : Tremolo.State) (e : Midi.Event) :
  Midi.kind e = Midi.NoteOff →
  let st' := fst (Tremolo.HandleMIDI ps st e) in
  Tremolo.activeNotes st' !! Tremolo.noteKey e = None
  ∧ Tremolo.lastBeatPos st' = Tremolo.lastBeatPos st
  ∧ (∀ e', (Midi.pitch e' ≠ Midi.pitch e ∨ Midi.channel e' ≠ Midi.channel e) →
           Tremolo.activeNotes st' !! Tremolo.noteKey e'
           = Tremolo.activeNotes st !! Tremolo.noteKey e')
  ∧ (Tremolo.activeNotes st !! Tremolo.noteKey e = None →
     Tremolo.HandleMIDI ps st e = (st, [Tremolo.Send e])).
Proof.
  intros Hk st'. subst st'. unfold Tremolo.HandleMIDI. rewrite Hk.
  destruct (Tremolo.activeNotes st !! Tremolo.noteKey e) as [info|] eqn:El;
    cbn [fst Tremolo.activeNotes Tremolo.lastBeatPos].
  - split; [apply lookup_delete_eq|]. split; [done|]. split; [|done].
    intros e' Hne. apply lookup_delete_ne. intros Heq.
    apply noteKey_eq_iff in Heq as [Hp Hc]. destruct Hne; congruence.
  - by repeat split.
Qed.

(** X24 on a note-off with nothing registered. *)
Lemma note_off_consumes_witness :
  let e := {| Midi.kind := Midi.NoteOff; Midi.pitch := 60;
              Midi.velocity := 0; Midi.channel := 2;
              Midi.beatPos := Some 3%Q |} in
  let st := Tremolo.initialState in
  let st' := fst (Tremolo.HandleMIDI Tremolo.defaultParams st e) in
  Tremolo.activeNotes st' !! Tremolo.noteKey e = None
  ∧ Tremolo.lastBeatPos st' = Tremolo.lastBeatPos st
  ∧ (∀ e', (Midi.pitch e' ≠ Midi.pitch e ∨ Midi.channel e' ≠ Midi.channel e) →
           Tremolo.activeNotes st' !! Tremolo.noteKey e'
           = Tremolo.activeNotes st !! Tremolo.noteKey e')
  ∧ (Tremolo.activeNotes st !! Tremolo.noteKey e = None →
     Tremolo.HandleMIDI Tremolo.defaultParams st e = (st, [Tremolo.Send e])).
Proof.
  intros e st.
  apply (note_off_consumes Tremolo.defaultParams st e). reflexivity.
Defined.

(** X25. A note-on followed by the note-off of the same pitch and channel,
    from a state with nothing registered under that key, brings the state
    back to what it was, and its output is the tail of the note-on,
    scheduled from the beat of the note-off, followed by the note-off
    itself. *)
Theorem note_on_off_round_trip
    (ps : Tremolo.Params) (st : Tremolo.State) (eOn eOff : Midi.Event) :
  Midi.kind eOn = Midi.NoteOn →
  Midi.kind eOff = Midi.NoteOff →
  Midi.pitch eOff = Midi.pitch eOn →
  Midi.channel eOff = Midi.channel eOn →
  Tremolo.activeNotes st !! Tremolo.noteKey eOn = None →
  let st1 := fst (Tremolo.HandleMIDI ps st eOn) in
  let startBeat := default (Tremolo.lastBeatPos st) (Midi.beatPos eOn) in
  let endBeat := default (Tremolo.lastBeatPos st) (Midi.beatPos eOff) in
  Tremolo.HandleMIDI ps st1 eOff
  = (st,
     (map Tremolo.SendAtBeat
        (Tremolo.createTailRepeats ps eOn (JS.max 0 (endBeat - startBeat))
           endBeat)
      ++ [Tremolo.Send eOff])%list).
Proof.
  intros HkOn HkOff Hp Hc Hfree st1 startBeat endBeat.
  assert (Hkey : Tremolo.noteKey eOff = Tremolo.noteKey eOn)
    by (by apply noteKey_eq_iff).
  subst st1. unfold Tremolo.HandleMIDI at 2. rewrite HkOn. cbn [fst].
  unfold Tremolo.HandleMIDI. rewrite HkOff, Hkey.
  cbn [Tremolo.activeNotes Tremolo.lastBeatPos].
  rewrite lookup_insert_eq. cbn [Tremolo.on Tremolo.startBeat].
  rewrite delete_insert_eq, delete_id by done.
  subst startBeat endBeat.
  destruct st as [m last]. cbn.
  by destruct (Midi.beatPos eOn), (Midi.beatPos eOff).
Qed.

(** X25 on a note held from beat 2 to beat 5. *)
Lemma note_on_off_round_trip_witness :
  let eOn := {| Midi.kind := Midi.NoteOn; Midi.pitch := 69;
                Midi.velocity := 100; Midi.channel := 1;
                Midi.beatPos := Some 2%Q |} in
  let eOff := {| Midi.kind := Midi.NoteOff; Midi.pitch := 69;
                 Midi.velocity := 0; Midi.channel := 1;
                 Midi.beatPos := Some 5%Q |} in
  let st := Tremolo.initialState in
  let st1 := fst (Tremolo.HandleMIDI Tremolo.defaultParams st eOn) in
  let startBeat := default (Tremolo.lastBeatPos st) (Midi.beatPos eOn) in
  let endBeat := default (Tremolo.lastBeatPos st) (Midi.beatPos eOff) in
  Tremolo.HandleMIDI Tremolo.defaultParams st1 eOff
  = (st,
     (map Tremolo.SendAtBeat
        (Tremolo.createTailRepeats Tremolo.defaultParams eOn
           (JS.max 0 (endBeat - startBeat)) endBeat)
      ++ [Tremolo.Send eOff])%list).
Proof.
  intros eOn eOff st.
  apply (note_on_off_round_trip Tremolo.defaultParams st eOn eOff);
    reflexivity.
Defined.

(** X26. Over a whole session of the tail generator, ticks and events in
    any order, the events passed to [send] are exactly the events
    received, in the order received; the tails are scheduled beside
    them. *)
Theorem tail_session_forwards_all_events
    (ps : Tremolo.Params) (st : Tremolo.State) (inputs : list Tremolo.Input) :
  Tremolo.sentNow (snd (Tremolo.run ps st inputs)) = Tremolo.eventsOf inputs.
Proof.
  revert st. induction inputs as [|[e|info] inputs IH]; intros st.
  - reflexivity.
  - cbn [Tremolo.run Tremolo.eventsOf].
    pose proof (handle_sentNow ps st e) as Hs.
    destruct (Tremolo.HandleMIDI ps st e) as [st1 out].
    specialize (IH st1).
    destruct (Tremolo.run ps st1 inputs) as [st2 out'].
    cbn in *. by rewrite sentNow_app, Hs, IH.
  - cbn [Tremolo.run Tremolo.eventsOf]. apply IH.
Qed.
